(** * Motor de inferencia por enumeracion (src/Motor_de_inferencia.py)

    Shallow embedding of [RedBayesiana.obtener_probabilidad] and
    [RedBayesiana.inferencia_por_enumeracion] with its nested functions
    [log_traza], [calcular_probabilidad_conjunta] and
    [enumerar_combinaciones], and of what [cargar_estructura] and
    [cargar_cpt] leave in the network.

    - Probabilities are IEEE 754 binary64 numbers (Python [float],
      numpy [float64]): Rocq's primitive [float].
    - A table cell is a categorical value or a missing value ([NaN]).
    - Python dicts are association lists in insertion order.
    - The assignment dicts ([evidencia], [asignacion_base],
      [nueva_asignacion], every [combinacion]) are objects of a store and
      are passed by reference; [dict.copy()] allocates. The dicts that a
      function builds and only hands to readers ([evidencia_padres],
      [resultados], [resultados_normalizados]) are values.
    - Exceptions, console output, trace files and the store are threaded by
      a state-and-exception monad; printing and writing a file succeed.
    - [self.variables] is a set: the order in which [list(self.variables)]
      lists it is an argument of the run.

    src/red_bayesiana.py has an earlier [RedBayesiana] with the same loader;
    its [obtener_probabilidad] (the distribution of a node, raising when no
    row matches) is not what the engine calls and is not modelled. *)

From Stdlib Require Import Floats.
From stdpp Require Import base option list sorting strings gmap.

Set Default Proof Using "Type".

(** ** Values of table cells

    A cell of a table, or a value of an assignment: a categorical value,
    given by its text, or the missing value that [pd.read_csv] gives an empty
    cell. *)

Inductive Valor :=
  | Texto (s : string)
  | NaN.

#[global] Instance Valor_eq_dec : EqDecision Valor.
Proof. solve_decision. Defined.

#[global] Instance Valor_inhabited : Inhabited Valor := populate NaN.

(** [a == b] on cells: a missing value is equal to nothing, itself included. *)
Definition valor_igual (a b : Valor) : bool :=
  match a, b with
  | Texto s, Texto t => bool_decide (s = t)
  | _, _ => false
  end.

(** [pd.notna(v)] *)
Definition notna (v : Valor) : bool :=
  match v with
  | NaN => false
  | Texto _ => true
  end.

(** ** Python dicts: association lists in insertion order *)

Abbreviation dict K V := (list (K * V)).

Section dict.
Context {K V : Type} `{EqDecision K}.

(** [d.get(k)]: [None] when the key is absent. *)
Fixpoint dict_get (d : dict K V) (k : K) : option V :=
  match d with
  | [] => None
  | (k', v) :: r => if decide (k = k') then Some v else dict_get r k
  end.

(** [k in d] *)
Definition dict_in (d : dict K V) (k : K) : bool :=
  match dict_get d k with Some _ => true | None => false end.

(** [d[k] = v]: a present key keeps its position, a new key goes last. *)
Fixpoint dict_set (d : dict K V) (k : K) (v : V) : dict K V :=
  match d with
  | [] => [(k, v)]
  | (k', v') :: r =>
      if decide (k = k') then (k', v) :: r else (k', v') :: dict_set r k v
  end.

Definition dict_keys (d : dict K V) : list K := d.*1.
Definition dict_values (d : dict K V) : list V := d.*2.
End dict.

(** ** Exceptions *)

Inductive excepcion :=
  | ValueError (mensaje : string)
  | KeyError (clave : string).

Inductive resultado (A : Type) :=
  | Ok (a : A)
  | Error (e : excepcion).
Arguments Ok {A} a.
Arguments Error {A} e.

#[global] Instance resultado_ret : MRet resultado := @Ok.
#[global] Instance resultado_bind : MBind resultado := λ A B f r,
  match r with
  | Ok a => f a
  | Error e => Error e
  end.

(** ** Tables and CPTs *)

(** A table read by [pd.read_csv] whose last column is 'probabilidad':
    [columnas] are the names of the columns before it, left to right, and
    each row has one cell per such column and its probability. *)
Record fila := {
  celdas : list Valor;
  probabilidad : float;
}.

Record DataFrame := {
  columnas : list string;
  filas : list fila;
}.

Fixpoint indice (c : string) (cols : list string) : option nat :=
  match cols with
  | [] => None
  | c' :: r => if decide (c = c') then Some 0 else S <$> indice c r
  end.

Definition celda (i : nat) (f : fila) : Valor := default NaN (celdas f !! i).

(** [df[c]]: the column as a list, [KeyError] when there is no such column. *)
Definition columna (df : DataFrame) (c : string) : resultado (list Valor) :=
  match indice c (columnas df) with
  | None => Error (KeyError c)
  | Some i => Ok (celda i <$> filas df)
  end.

(** [col == x], elementwise. *)
Definition columna_igual (col : list Valor) (x : Valor) : list bool :=
  (λ c, valor_igual c x) <$> col.

Fixpoint seleccionar (fs : list fila) (mascara : list bool) : list fila :=
  match fs, mascara with
  | f :: fs', b :: m' => if b then f :: seleccionar fs' m' else seleccionar fs' m'
  | _, _ => []
  end.

(** [df[mascara]] *)
Definition df_filtrar (df : DataFrame) (mascara : list bool) : DataFrame :=
  {| columnas := columnas df; filas := seleccionar (filas df) mascara |}.

(** [Series.unique()]: the values in order of first appearance. *)
Fixpoint unique (l : list Valor) : list Valor :=
  match l with
  | [] => []
  | x :: r => x :: filter (λ y, y ≠ x) (unique r)
  end.

(** The entry [self.cpts[nombre_nodo]] (the fields the engine reads). *)
Record cpt_info := {
  data : DataFrame;
  padres : list string;
  columna_valor : string;
}.

Record RedBayesiana := {
  cpts : dict string cpt_info;
  variables : gset string;
}.

(** [cargar_cpt], after the table is read and its last column checked:
    [columnas_variables[-1]] raises on a table with no other column, the
    exception is caught and nothing is registered. *)
Definition cargar_cpt (rb : RedBayesiana) (df : DataFrame) (nombre_nodo : string)
    : RedBayesiana * option string :=
  let columnas_variables := columnas df in
  match last columnas_variables with
  | None => (rb, None)
  | Some columna_valor =>
      let padres :=
        if decide (1 < length columnas_variables)
        then removelast columnas_variables else [] in
      ({| cpts := dict_set (cpts rb) nombre_nodo
                    {| data := df; padres := padres;
                       columna_valor := columna_valor |};
          variables := variables rb |},
       Some nombre_nodo)
  end.

(** [RedBayesiana()] *)
Definition red_inicial : RedBayesiana := {| cpts := []; variables := ∅ |}.

(** [cargar_estructura] on a table of edges (padre, hijo), the names
    stripped: both ends of every edge join the set of variables. The graph
    itself is not read by the inference. *)
Definition cargar_estructura (rb : RedBayesiana)
    (aristas : list (string * string)) : RedBayesiana :=
  {| cpts := cpts rb;
     variables := variables rb ∪ list_to_set (aristas.*1 ++ aristas.*2) |}.

(** The networks that the loader builds. *)
Inductive red_cargada : RedBayesiana → Prop :=
  | cargada_inicial : red_cargada red_inicial
  | cargada_estructura rb aristas :
      red_cargada rb → red_cargada (cargar_estructura rb aristas)
  | cargada_cpt rb df nombre_nodo :
      red_cargada rb → red_cargada (cargar_cpt rb df nombre_nodo).1.

(** ** Conditional lookup *)

(** One round of the loop over the parents (lines 97-99). *)
Definition filtrar_padre (df : DataFrame) (evidencia_parcial : dict string Valor)
    (mascara : list bool) (padre : string) : resultado (list bool) :=
  match dict_get evidencia_parcial padre with
  | None => Ok mascara
  | Some x =>
      col ← columna df padre;
      Ok (zip_with andb mascara (columna_igual col x))
  end.

Fixpoint filtrar_padres (df : DataFrame) (evidencia_parcial : dict string Valor)
    (ps : list string) (mascara : list bool) : resultado (list bool) :=
  match ps with
  | [] => Ok mascara
  | padre :: r =>
      mascara' ← filtrar_padre df evidencia_parcial mascara padre;
      filtrar_padres df evidencia_parcial r mascara'
  end.

(** [fila.iloc[0]['probabilidad']] of the rows of [df] whose value column
    equals [valor], or 0.0 when there is none. *)
Definition primera_con_valor (df : DataFrame) (col_valor : string) (valor : Valor)
    : resultado float :=
  col ← columna df col_valor;
  match seleccionar (filas df) (columna_igual col valor) with
  | [] => Ok 0%float
  | f :: _ => Ok (probabilidad f)
  end.

Definition obtener_probabilidad (rb : RedBayesiana) (variable : string)
    (valor : Valor) (evidencia_parcial : dict string Valor) : resultado float :=
  match dict_get (cpts rb) variable with
  | None => Error (ValueError ("No hay CPT para " +:+ variable))
  | Some cpt_info =>
      let df := data cpt_info in
      match padres cpt_info with
      | [] => primera_con_valor df (columna_valor cpt_info) valor
      | _ :: _ =>
          mascara ← filtrar_padres df evidencia_parcial (padres cpt_info)
                      (replicate (length (filas df)) true);
          let filas_coincidentes := df_filtrar df mascara in
          match filas filas_coincidentes with
          | [] => Ok 0%float
          | _ :: _ =>
              primera_con_valor filas_coincidentes (columna_valor cpt_info) valor
          end
      end
  end.

(** ** Trace messages

    One constructor per f-string of the source, carrying the values that the
    f-string formats. *)

(** The entries of [explicacion] (lines 168 and 170). *)
Inductive factor :=
  | FactorCondicional (variable : string) (valor : Valor)
      (evidencia_padres : dict string Valor) (prob_cond : float)
  | FactorRaiz (variable : string) (valor : Valor) (prob_cond : float).

Inductive mensaje :=
  | MsgCabecera
  | MsgConsulta (consulta : string) (evidencia : dict string Valor)
  | MsgVariablesRed (todas_variables : list string)
  | MsgVariablesOcultas (variables_ocultas : list string)
  | MsgConsultaX (consulta : string)
  | MsgEvidenciaE (evidencia : dict string Valor)
  | MsgValoresPosibles (consulta : string) (valores_consulta : list Valor)
  | MsgCalculo
  | MsgFormula (consulta : string) (evidencia : dict string Valor)
      (variables_ocultas : list string)
  | MsgCalculoPara (consulta : string) (valor_consulta : Valor)
  | MsgCombinacion (combinaciones_validas : nat) (combinacion : dict string Valor)
  | MsgProducto (explicacion : list factor) (prob : float)
  | MsgSumaPara (consulta : string) (valor_consulta : Valor)
      (suma_probabilidad : float)
  | MsgCombinacionesValidas (combinaciones_validas : nat)
  | MsgNormalizacion
  | MsgSumaTotal (suma_total : float)
  | MsgErrorSumaCero
  | MsgAlpha (suma_total alpha : float)
  | MsgProbNormalizada (consulta : string) (valor : Valor)
      (prob alpha prob_normalizada : float)
  | MsgResultadoFinal
  | MsgDistribucion (consulta : string) (evidencia : dict string Valor)
      (resultados_normalizados : dict Valor float).

(** ** State *)

(** A reference to a dict of the store. *)
Definition loc := nat.

(** An invocation of [obtener_probabilidad], as a spy on it records it. *)
Definition llamada : Type := string * Valor * dict string Valor.

(** [memoria]: the assignment dicts, by location; [consola]: what [print]
    has written; [archivos]: the lines of each trace file, by path;
    [llamadas]: the invocations of [obtener_probabilidad] so far (what a spy
    in its place records; the source keeps no such list). *)
Record estado := {
  memoria : list (dict string Valor);
  consola : list mensaje;
  archivos : gmap string (list mensaje);
  llamadas : list llamada;
}.

Definition M (A : Type) : Type := estado → resultado A * estado.

#[global] Instance M_ret : MRet M := λ A a σ, (Ok a, σ).
#[global] Instance M_bind : MBind M := λ A B f m σ,
  match m σ with
  | (Ok a, σ') => f a σ'
  | (Error e, σ') => (Error e, σ')
  end.

Definition lanzar {A} (e : excepcion) : M A := λ σ, (Error e, σ).

(** A computation that only returns or raises. *)
Definition elevar {A} (r : resultado A) : M A := λ σ, (r, σ).

Definition foldM {A B} (f : B → A → M B) : list A → B → M B :=
  fix go l b :=
    match l with
    | [] => mret b
    | x :: r => b' ← f b x; go r b'
    end.

(** *** Dicts of the store *)

Definition contenido (σ : estado) (l : loc) : dict string Valor :=
  default [] (memoria σ !! l).

Definition con_memoria (σ : estado) (m : list (dict string Valor)) : estado :=
  {| memoria := m; consola := consola σ; archivos := archivos σ;
     llamadas := llamadas σ |}.

Definition leer (l : loc) : M (dict string Valor) := λ σ, (Ok (contenido σ l), σ).

(** [d.copy()] *)
Definition dict_copy (l : loc) : M loc := λ σ,
  (Ok (length (memoria σ)), con_memoria σ (memoria σ ++ [contenido σ l])).

(** [d[k] = v] *)
Definition dict_setitem (l : loc) (k : string) (v : Valor) : M unit := λ σ,
  (Ok (), con_memoria σ (alter (λ d, dict_set d k v) l (memoria σ))).

(** [d[k]] *)
Definition dict_getitem (l : loc) (k : string) : M Valor :=
  d ← leer l;
  match dict_get d k with
  | Some v => mret v
  | None => lanzar (KeyError k)
  end.

(** *** Trace *)

(** Truth value of [archivo_traza]: [None] and the empty string are false. *)
Definition ruta_traza (archivo_traza : option string) : option string :=
  match archivo_traza with
  | Some ruta => if decide (ruta = "") then None else Some ruta
  | None => None
  end.

(** [open(archivo_traza, 'w')] followed by writes. *)
Definition escribir (ruta : string) (ms : list mensaje) : M unit := λ σ,
  (Ok (), {| memoria := memoria σ; consola := consola σ;
             archivos := <[ruta := ms]> (archivos σ);
             llamadas := llamadas σ |}).

Definition log_traza (mostrar_traza : bool) (archivo_traza : option string)
    (mensaje : mensaje) : M unit := λ σ,
  (Ok (),
   {| memoria := memoria σ;
      consola := if mostrar_traza then consola σ ++ [mensaje] else consola σ;
      archivos :=
        match ruta_traza archivo_traza with
        | Some ruta =>
            <[ruta := default [] (archivos σ !! ruta) ++ [mensaje]]> (archivos σ)
        | None => archivos σ
        end;
      llamadas := llamadas σ |}).

(** *** Lookups through the spy *)

Definition llamar_obtener_probabilidad (rb : RedBayesiana) (variable : string)
    (valor : Valor) (evidencia_padres : dict string Valor) : M float := λ σ,
  (obtener_probabilidad rb variable valor evidencia_padres,
   {| memoria := memoria σ; consola := consola σ; archivos := archivos σ;
      llamadas := llamadas σ ++ [(variable, valor, evidencia_padres)] |}).

(** [self.cpts[variable]] *)
Definition cpts_getitem (rb : RedBayesiana) (variable : string)
    : resultado cpt_info :=
  match dict_get (cpts rb) variable with
  | Some cpt_info => Ok cpt_info
  | None => Error (KeyError variable)
  end.

(** Lines 134-135 and 183-184:
    [list(self.cpts[v]['data'][self.cpts[v]['columna_valor']].unique())]
    without the missing values. *)
Definition valores_posibles (rb : RedBayesiana) (variable : string)
    : resultado (list Valor) :=
  cpt_info ← cpts_getitem rb variable;
  col ← columna (data cpt_info) (columna_valor cpt_info);
  Ok (filter (λ v, notna v = true) (unique col)).

(** ** Joint probability of a complete assignment (lines 141-172) *)

(** Lines 151-155: the parents of [variable] that the assignment has. *)
Definition reunir_padres (rb : RedBayesiana) (variable : string)
    (asignacion_completa : dict string Valor) : dict string Valor :=
  match dict_get (cpts rb) variable with
  | None => []
  | Some cpt_info =>
      fold_left
        (λ evidencia_padres padre,
           match dict_get asignacion_completa padre with
           | Some x => dict_set evidencia_padres padre x
           | None => evidencia_padres
           end)
        (padres cpt_info) []
  end.

Fixpoint calcular_bucle (rb : RedBayesiana) (asignacion_completa : loc)
    (vs : list string) (probabilidad : float) (explicacion : list factor)
    : M (float * list factor) :=
  match vs with
  | [] => mret (probabilidad, explicacion)
  | variable :: resto =>
      valor ← dict_getitem asignacion_completa variable;
      asignacion ← leer asignacion_completa;
      let evidencia_padres := reunir_padres rb variable asignacion in
      prob_cond ← llamar_obtener_probabilidad rb variable valor evidencia_padres;
      if (prob_cond =? 0)%float then mret (0%float, [])
      else
        let probabilidad := (probabilidad * prob_cond)%float in
        cpt_info ← elevar (cpts_getitem rb variable);
        let explicacion :=
          explicacion ++
          [match padres cpt_info with
           | _ :: _ => FactorCondicional variable valor evidencia_padres prob_cond
           | [] => FactorRaiz variable valor prob_cond
           end] in
        calcular_bucle rb asignacion_completa resto probabilidad explicacion
  end.

Definition calcular_probabilidad_conjunta (rb : RedBayesiana)
    (todas_variables : list string) (asignacion_completa : loc)
    : M (float * list factor) :=
  calcular_bucle rb asignacion_completa todas_variables 1%float [].

(** ** Enumeration of the hidden variables (lines 174-192) *)

Fixpoint enumerar_combinaciones (rb : RedBayesiana) (vs : list string)
    (asignacion_actual : loc) : M (list loc) :=
  match vs with
  | [] => copia ← dict_copy asignacion_actual; mret [copia]
  | variable_actual :: resto =>
      valores_variable ← elevar (valores_posibles rb variable_actual);
      foldM
        (λ combinaciones valor,
           nueva_asignacion ← dict_copy asignacion_actual;
           dict_setitem nueva_asignacion variable_actual valor;;
           mas ← enumerar_combinaciones rb resto nueva_asignacion;
           mret (combinaciones ++ mas))
        valores_variable []
  end.

(** ** Inference by enumeration (lines 112-239) *)

Section inferencia.
Variable rb : RedBayesiana.
(** [list(self.variables)]: the iteration order of the set. *)
Variable todas_variables : list string.
Variable consulta : string.
Variable evidencia : loc.
Variable mostrar_traza : bool.
Variable archivo_traza : option string.

Local Abbreviation log := (log_traza mostrar_traza archivo_traza).

(** Lines 121-124. *)
Definition abrir_traza : M unit :=
  match ruta_traza archivo_traza with
  | Some ruta =>
      e ← leer evidencia;
      escribir ruta [MsgCabecera; MsgConsulta consulta e]
  | None => mret ()
  end.

(** The body of the loop of lines 205-212. *)
Definition acumular (acc : float * nat) (combinacion : loc) : M (float * nat) :=
  let '(suma_probabilidad, combinaciones_validas) := acc in
  '(prob, explicacion) ← calcular_probabilidad_conjunta rb todas_variables
                           combinacion;
  if (0 <? prob)%float then
    let suma_probabilidad := (suma_probabilidad + prob)%float in
    let combinaciones_validas := S combinaciones_validas in
    c ← leer combinacion;
    log (MsgCombinacion combinaciones_validas c);;
    log (MsgProducto explicacion prob);;
    mret (suma_probabilidad, combinaciones_validas)
  else mret (suma_probabilidad, combinaciones_validas).

(** The body of the loop of lines 196-216. *)
Definition sumar_valor (variables_ocultas : list string)
    (resultados : dict Valor float) (valor_consulta : Valor)
    : M (dict Valor float) :=
  log (MsgCalculoPara consulta valor_consulta);;
  asignacion_base ← dict_copy evidencia;
  dict_setitem asignacion_base consulta valor_consulta;;
  combinaciones ← enumerar_combinaciones rb variables_ocultas asignacion_base;
  '(suma_probabilidad, combinaciones_validas) ←
    foldM acumular combinaciones (0%float, 0);
  let resultados := dict_set resultados valor_consulta suma_probabilidad in
  log (MsgSumaPara consulta valor_consulta suma_probabilidad);;
  log (MsgCombinacionesValidas combinaciones_validas);;
  mret resultados.

(** [sum(resultados.values())] *)
Definition suma (resultados : dict Valor float) : float :=
  fold_left PrimFloat.add (dict_values resultados) 0%float.

(** The body of the loop of lines 231-234. *)
Definition normalizar_valor (alpha : float)
    (resultados_normalizados : dict Valor float) (item : Valor * float)
    : M (dict Valor float) :=
  let '(valor, prob) := item in
  let prob_normalizada := (prob * alpha)%float in
  let resultados_normalizados :=
    dict_set resultados_normalizados valor prob_normalizada in
  log (MsgProbNormalizada consulta valor prob alpha prob_normalizada);;
  mret resultados_normalizados.

(** Lines 218-239. *)
Definition normalizar (resultados : dict Valor float)
    : M (option (dict Valor float)) :=
  log MsgNormalizacion;;
  let suma_total := suma resultados in
  log (MsgSumaTotal suma_total);;
  if (suma_total =? 0)%float then
    log MsgErrorSumaCero;;
    mret None
  else
    let alpha := (1 / suma_total)%float in
    log (MsgAlpha suma_total alpha);;
    resultados_normalizados ← foldM (normalizar_valor alpha) resultados [];
    log MsgResultadoFinal;;
    e ← leer evidencia;
    log (MsgDistribucion consulta e resultados_normalizados);;
    mret (Some resultados_normalizados).

(** Lines 126-216: the accumulated sum of every value of [consulta]. *)
Definition sumas : M (dict Valor float) :=
  abrir_traza;;
  log (MsgVariablesRed todas_variables);;
  e ← leer evidencia;
  let variables_ocultas :=
    filter (λ v, v ≠ consulta ∧ dict_in e v = false) todas_variables in
  log (MsgVariablesOcultas variables_ocultas);;
  log (MsgConsultaX consulta);;
  log (MsgEvidenciaE e);;
  valores_consulta ← elevar (valores_posibles rb consulta);
  log (MsgValoresPosibles consulta valores_consulta);;
  log MsgCalculo;;
  log (MsgFormula consulta e variables_ocultas);;
  foldM (sumar_valor variables_ocultas) valores_consulta [].

Definition inferencia_por_enumeracion : M (option (dict Valor float)) :=
  resultados ← sumas;
  normalizar resultados.
End inferencia.



(** ** The validation report (lines 241-291)

    [generar_reporte_validacion] prints fixed lines and lines that format a
    result; a line is a constructor per [print] of the source. *)

Inductive linea_reporte :=
  | RepTitulo
  | RepCaso (n : nat)
  | RepConsulta (n : nat)
  | RepVariablesOcultas
  | RepValorEsperado
  | RepValorRealAlto (valor_real_alto : float)
  | RepNoCalculado
  | RepValorReal (resultado : dict Valor float)
  | RepEvidenciaImposible
  | RepExitosos (casos_exitosos : nat)
  | RepArchivos
  | RepCompletada.

(** How the report ends: it returns, or an index of [resultados_reales] is
    out of range. *)
Inductive fin_reporte :=
  | Termina
  | IndexError.

(** The lines of a case that is always indexed (cases 2 and 3). *)
Definition lineas_resultado (r : option (dict Valor float)) : list linea_reporte :=
  match r with
  | Some d => [RepValorReal d]
  | None => [RepEvidenciaImposible]
  end.

(** The lines of a case that is indexed only within the length (cases 4
    and 5): [len(resultados_reales) > i and resultados_reales[i] is not
    None]. *)
Definition lineas_resultado_opcional
    (resultados_reales : list (option (dict Valor float))) (i : nat)
    : list linea_reporte :=
  match resultados_reales !! i with
  | Some (Some d) => [RepValorReal d]
  | _ => [RepNoCalculado]
  end.

(** What is printed, and how the call ends. *)
Definition generar_reporte_validacion
    (resultados_reales : list (option (dict Valor float)))
    : list linea_reporte * fin_reporte :=
  let caso1 := [RepTitulo; RepCaso 1; RepConsulta 1; RepVariablesOcultas] in
  match resultados_reales !! 0 with
  | None => (caso1, IndexError)
  | Some r0 =>
      let caso2 :=
        caso1 ++
        match r0 with
        | Some d =>
            let valor_real_alto :=
              default 0%float (dict_get d (Texto "alto_riesgo")) in
            [RepValorEsperado; RepValorRealAlto valor_real_alto]
        | None => [RepNoCalculado]
        end ++ [RepCaso 2; RepConsulta 2] in
      match resultados_reales !! 1 with
      | None => (caso2, IndexError)
      | Some r1 =>
          let caso3 := caso2 ++ lineas_resultado r1 ++ [RepCaso 3; RepConsulta 3] in
          match resultados_reales !! 2 with
          | None => (caso3, IndexError)
          | Some r2 =>
              let casos_exitosos :=
                length (filter (λ r, is_Some r) resultados_reales) in
              (caso3 ++ lineas_resultado r2 ++
               [RepCaso 4; RepConsulta 4] ++
               lineas_resultado_opcional resultados_reales 3 ++
               [RepCaso 5; RepConsulta 5] ++
               lineas_resultado_opcional resultados_reales 4 ++
               [RepExitosos casos_exitosos; RepArchivos; RepCompletada],
               Termina)
          end
      end
  end.

(** ** Notions used by the statements *)

(** What [cargar_cpt] establishes of an entry: its parents followed by its
    value column are the columns of its table. *)
Definition cpt_bien_formada (info : cpt_info) : Prop :=
  padres info ++ [columna_valor info] = columnas (data info).

Definition red_bien_formada (rb : RedBayesiana) : Prop :=
  ∀ v info, dict_get (cpts rb) v = Some info → cpt_bien_formada info.

(** The row agrees with the evidence on every parent that the evidence has. *)
Definition fila_coincide (info : cpt_info) (evidencia_parcial : dict string Valor)
    (f : fila) : Prop :=
  ∀ padre x i,
    padre ∈ padres info →
    dict_get evidencia_parcial padre = Some x →
    indice padre (columnas (data info)) = Some i →
    valor_igual (celda i f) x = true.

(** The value column of the row equals [valor]. *)
Definition fila_con_valor (info : cpt_info) (valor : Valor) (f : fila) : Prop :=
  ∃ i, indice (columna_valor info) (columnas (data info)) = Some i ∧
       valor_igual (celda i f) valor = true.

(** The test that the mask applies to a row for one parent. *)
Definition prueba_padre (df : DataFrame) (ev : dict string Valor)
    (padre : string) (f : fila) : bool :=
  match dict_get ev padre, indice padre (columnas df) with
  | Some x, Some i => valor_igual (celda i f) x
  | _, _ => true
  end.

(** Position of the first occurrence of [x] in [l]. *)
Fixpoint primer_indice (x : Valor) (l : list Valor) : nat :=
  match l with
  | [] => 0
  | y :: r => if decide (x = y) then 0 else S (primer_indice x r)
  end.

(** [dom] is the distinct, non-missing values of [col], in the order of
    their first occurrences. *)
Definition es_dominio (col dom : list Valor) : Prop :=
  NoDup dom ∧
  (∀ x, x ∈ dom ↔ x ∈ col ∧ x ≠ NaN) ∧
  StronglySorted (λ x y, primer_indice x col < primer_indice y col) dom.

Definition dominio_de (rb : RedBayesiana) (v : string) (dom : list Valor) : Prop :=
  ∃ info col,
    dict_get (cpts rb) v = Some info ∧
    columna (data info) (columna_valor info) = Ok col ∧
    es_dominio col dom.

(** Cartesian product of a list of domains, the first one varying slowest. *)
Fixpoint producto (doms : list (list Valor)) : list (list Valor) :=
  match doms with
  | [] => [[]]
  | dom :: r => x ← dom; (x ::.) <$> producto r
  end.

(** [base] with [vs[i] = tupla[i]] assigned in turn. *)
Definition extender (base : dict string Valor) (vs : list string)
    (tupla : list Valor) : dict string Valor :=
  fold_left (λ d kv, dict_set d kv.1 kv.2) (zip vs tupla) base.

(** The chain-rule factor of [variable] in a complete assignment: what the
    loop of [calcular_probabilidad_conjunta] looks up for it. *)
Definition factor_de (rb : RedBayesiana) (asignacion : dict string Valor)
    (variable : string) : resultado float :=
  match dict_get asignacion variable with
  | None => Error (KeyError variable)
  | Some valor =>
      obtener_probabilidad rb variable valor (reunir_padres rb variable asignacion)
  end.

(** The call that the loop makes for [variable]. *)
Definition llamada_de (rb : RedBayesiana) (asignacion : dict string Valor)
    (variable : string) : llamada :=
  (variable, default NaN (dict_get asignacion variable),
   reunir_padres rb variable asignacion).

(** [x] is 1.0 within the tolerance 1e-9 (the literal is the binary64
    number nearest to it). *)
Definition cerca_de_uno (x : float) : bool :=
  (abs (x - 1) <=? 0x1.12e0be826d695p-30)%float.

(** ** A small network

    Edad -> Fumador, with the tables of both. *)

Definition tabla_edad : DataFrame :=
  {| columnas := ["Edad"];
     filas := [ {| celdas := [Texto "joven"]; probabilidad := 0.25 |};
                {| celdas := [Texto "adulto"]; probabilidad := 0.75 |} ] |}.

Definition tabla_fumador : DataFrame :=
  {| columnas := ["Edad"; "Fumador"];
     filas :=
       [ {| celdas := [Texto "joven"; Texto "si"]; probabilidad := 0.5 |};
         {| celdas := [Texto "joven"; Texto "no"]; probabilidad := 0.5 |};
         {| celdas := [Texto "adulto"; Texto "si"]; probabilidad := 0.25 |};
         {| celdas := [Texto "adulto"; Texto "no"]; probabilidad := 0.75 |} ] |}.

Definition red_ejemplo : RedBayesiana :=
  (cargar_cpt
     (cargar_cpt (cargar_estructura red_inicial [("Edad", "Fumador")])
        tabla_edad "Edad").1
     tabla_fumador "Fumador").1.

(** Edad -> Fumador and Edad -> Ejercicio. *)
Definition tabla_ejercicio : DataFrame :=
  {| columnas := ["Edad"; "Ejercicio"];
     filas :=
       [ {| celdas := [Texto "joven"; Texto "poco"]; probabilidad := 0.5 |};
         {| celdas := [Texto "joven"; Texto "mucho"]; probabilidad := 0.5 |};
         {| celdas := [Texto "adulto"; Texto "poco"]; probabilidad := 0.5 |};
         {| celdas := [Texto "adulto"; Texto "mucho"]; probabilidad := 0.5 |} ] |}.

Definition red_tres : RedBayesiana :=
  (cargar_cpt (cargar_estructura red_ejemplo [("Edad", "Ejercicio")])
     tabla_ejercicio "Ejercicio").1.

(** A -> B where the value x of B has the probability 2^-1073 under both
    values of A (every row group still sums to 1.0). *)
Definition tabla_a : DataFrame :=
  {| columnas := ["A"];
     filas := [ {| celdas := [Texto "a"]; probabilidad := 0.5 |};
                {| celdas := [Texto "b"]; probabilidad := 0.5 |} ] |}.

Definition tabla_b : DataFrame :=
  {| columnas := ["A"; "B"];
     filas :=
       [ {| celdas := [Texto "a"; Texto "x"]; probabilidad := 0x1p-1073 |};
         {| celdas := [Texto "a"; Texto "y"]; probabilidad := 1 |};
         {| celdas := [Texto "b"; Texto "x"]; probabilidad := 0x1p-1073 |};
         {| celdas := [Texto "b"; Texto "y"]; probabilidad := 1 |} ] |}.

Definition red_rara : RedBayesiana :=
  (cargar_cpt
     (cargar_cpt (cargar_estructura red_inicial [("A", "B")]) tabla_a "A").1
     tabla_b "B").1.

(** The table of Edad registered with no structure loaded: the set of
    variables is empty. *)
Definition red_sin_estructura : RedBayesiana :=
  (cargar_cpt red_inicial tabla_edad "Edad").1.

Definition estado_inicial (evidencia : dict string Valor) : estado :=
  {| memoria := [evidencia]; consola := []; archivos := ∅; llamadas := [] |}.

(** [m] leaves the dicts at the locations below [n] as they are, whether it
    returns or raises, and what it returns satisfies [Q]. *)
Definition marco {A} (n : nat) (m : M A) (Q : A → Prop) : Prop :=
  ∀ σ, n ≤ length (memoria σ) →
    n ≤ length (memoria (m σ).2) ∧
    take n (memoria (m σ).2) = take n (memoria σ) ∧
    (∀ a, (m σ).1 = Ok a → Q a).



(** The variable and the probability that an entry of [explicacion]
    shows. *)
Definition variable_de_factor (f : factor) : string :=
  match f with
  | FactorCondicional variable _ _ _ => variable
  | FactorRaiz variable _ _ => variable
  end.

Definition prob_de_factor (f : factor) : float :=
  match f with
  | FactorCondicional _ _ _ prob_cond => prob_cond
  | FactorRaiz _ _ prob_cond => prob_cond
  end.

(** The state after the lookups [cs] have been recorded. *)
Definition con_llamadas (σ : estado) (cs : list llamada) : estado :=
  {| memoria := memoria σ; consola := consola σ; archivos := archivos σ;
     llamadas := llamadas σ ++ cs |}.

(** [red_ejemplo] with a table of Presion that has no rows. *)
Definition tabla_presion : DataFrame :=
  {| columnas := ["Presion"]; filas := [] |}.

Definition red_presion : RedBayesiana :=
  (cargar_cpt (cargar_estructura red_ejemplo [("Edad", "Presion")])
     tabla_presion "Presion").1.

(** From a state where [P] holds, [m] ends in a state where [Q] holds,
    whether it returns or raises. *)
Definition hoare {A} (P : estado → Prop) (m : M A) (Q : estado → Prop) : Prop :=
  ∀ σ, P σ → Q (m σ).2.

(** [I] speaks of the console and the files only. *)
Definition solo_traza (I : estado → Prop) : Prop :=
  ∀ σ1 σ2, consola σ1 = consola σ2 → archivos σ1 = archivos σ2 → I σ1 → I σ2.

(** Whatever [m] returns satisfies [Q]. *)
Definition retorna {A} (m : M A) (Q : A → Prop) : Prop :=
  ∀ σ a σ', m σ = (Ok a, σ') → Q a.

(** * Properties *)

(** ** Dicts *)

Section dict_lemas.
Context {K V : Type} `{EqDecision K}.
Implicit Types (d : dict K V) (k : K) (v : V).

Lemma dict_get_set_eq d k v : dict_get (dict_set d k v) k = Some v.
Proof.
  induction d as [|[k' v'] d IH]; simpl.
  - by rewrite decide_True.
  - destruct (decide (k = k')) as [->|Hne]; simpl.
    + by rewrite decide_True.
    + by rewrite decide_False.
Qed.

Lemma dict_get_set_ne d k k' v :
  k ≠ k' → dict_get (dict_set d k v) k' = dict_get d k'.
Proof.
  intros Hne. induction d as [|[k0 v0] d IH]; simpl.
  - by rewrite decide_False.
  - destruct (decide (k = k0)) as [->|Hk]; simpl.
    + by rewrite !decide_False.
    + destruct (decide (k' = k0)); [done|apply IH].
Qed.

Lemma dict_set_fresh d k v :
  k ∉ dict_keys d → dict_set d k v = d ++ [(k, v)].
Proof.
  unfold dict_keys. induction d as [|[k' v'] d IH]; simpl; [done|].
  rewrite not_elem_of_cons. intros [Hne Hd].
  rewrite decide_False by done. by rewrite IH.
Qed.

End dict_lemas.

(** ** Tables *)

Lemma seleccionar_fmap (p : fila → bool) (fs : list fila) :
  seleccionar fs (p <$> fs) = filter (λ f, p f) fs.
Proof.
  induction fs as [|f fs IH]; [done|].
  rewrite fmap_cons. cbn [seleccionar]. rewrite IH.
  destruct (p f) eqn:Hp.
  - rewrite filter_cons_True; [done|]. by apply Is_true_true.
  - rewrite filter_cons_False; [done|]. by apply Is_true_false.
Qed.

Lemma zip_with_fmap_mismo {A B C D} (g : B → C → D) (f1 : A → B) (f2 : A → C)
    (l : list A) :
  zip_with g (f1 <$> l) (f2 <$> l) = (λ x, g (f1 x) (f2 x)) <$> l.
Proof. induction l as [|x l IH]; csimpl; [done|]. by rewrite IH. Qed.

Lemma columna_igual_celda i (fs : list fila) x :
  columna_igual (celda i <$> fs) x = (λ f, valor_igual (celda i f) x) <$> fs.
Proof. unfold columna_igual. by rewrite <-list_fmap_compose. Qed.

Lemma indice_Some c cols : c ∈ cols → is_Some (indice c cols).
Proof.
  induction cols as [|c' cols IH]; simpl.
  - by intros ?%elem_of_nil.
  - intros Hin. destruct (decide (c = c')); [by eexists|].
    apply elem_of_cons in Hin as [?|Hin]; [done|].
    destruct (IH Hin) as [i ->]. by eexists.
Qed.

Lemma filtrar_padre_ok df ev (q : fila → bool) padre :
  padre ∈ columnas df →
  filtrar_padre df ev (q <$> filas df) padre =
  Ok ((λ f, q f && prueba_padre df ev padre f) <$> filas df).
Proof.
  intros [i Hi]%indice_Some. unfold filtrar_padre, prueba_padre, columna.
  rewrite Hi. destruct (dict_get ev padre) as [x|]; simpl.
  - by rewrite columna_igual_celda, zip_with_fmap_mismo.
  - f_equal. apply list_fmap_ext. intros ? f _. by rewrite andb_true_r.
Qed.

Lemma filtrar_padres_ok df ev ps (q : fila → bool) :
  ps ⊆ columnas df →
  filtrar_padres df ev ps (q <$> filas df) =
  Ok ((λ f, q f && forallb (λ padre, prueba_padre df ev padre f) ps)
        <$> filas df).
Proof.
  revert q. induction ps as [|padre ps IH]; intros q Hsub; simpl.
  - f_equal. apply list_fmap_ext. intros ? f _. by rewrite andb_true_r.
  - rewrite filtrar_padre_ok by set_solver. simpl.
    rewrite IH by set_solver. f_equal.
    apply list_fmap_ext. intros ? f _. by rewrite andb_assoc.
Qed.

Lemma primera_con_valor_filtrada df (p : fila → bool) c valor i :
  indice c (columnas df) = Some i →
  primera_con_valor (df_filtrar df (p <$> filas df)) c valor =
  Ok (match filter (λ f, valor_igual (celda i f) valor)
              (filter (λ f, p f) (filas df)) with
      | [] => 0%float
      | f :: _ => probabilidad f
      end).
Proof.
  intros Hi. unfold primera_con_valor, columna, df_filtrar. simpl.
  rewrite Hi. simpl. rewrite seleccionar_fmap, columna_igual_celda.
  rewrite seleccionar_fmap. by destruct (filter _ _).
Qed.

Lemma primera_con_valor_total df c valor i :
  indice c (columnas df) = Some i →
  primera_con_valor df c valor =
  Ok (match filter (λ f, valor_igual (celda i f) valor) (filas df) with
      | [] => 0%float
      | f :: _ => probabilidad f
      end).
Proof.
  intros Hi. unfold primera_con_valor, columna. rewrite Hi. simpl.
  rewrite columna_igual_celda, seleccionar_fmap. by destruct (filter _ _).
Qed.

Lemma cpt_bien_formada_padres info :
  cpt_bien_formada info → padres info ⊆ columnas (data info).
Proof. unfold cpt_bien_formada. intros <-. set_solver. Qed.

Lemma cpt_bien_formada_valor info :
  cpt_bien_formada info → columna_valor info ∈ columnas (data info).
Proof. unfold cpt_bien_formada. intros <-. set_solver. Qed.

Lemma padres_y_valor (cols : list string) c :
  last cols = Some c →
  (if decide (1 < length cols) then removelast cols else []) ++ [c] = cols.
Proof.
  intros Hlast. destruct (decide _) as [Hlen|Hlen].
  - destruct cols as [|x cols _] using rev_ind; [done|].
    rewrite last_snoc in Hlast. injection Hlast as ->.
    by rewrite removelast_last.
  - destruct cols as [|x [|y cols]]; simpl in *; [done| |lia].
    by injection Hlast as ->.
Qed.


(** [cargar_cpt] registers only well-formed entries. *)
Lemma cargar_cpt_bien_formada rb df nombre_nodo :
  red_bien_formada rb → red_bien_formada (cargar_cpt rb df nombre_nodo).1.
Proof.
  intros Hrb. unfold cargar_cpt.
  destruct (last (columnas df)) as [c|] eqn:Hlast; [|done].
  intros v info. simpl.
  destruct (decide (nombre_nodo = v)) as [->|Hne].
  - rewrite dict_get_set_eq. intros [= <-]. unfold cpt_bien_formada. simpl.
    by apply padres_y_valor.
  - rewrite dict_get_set_ne by done. apply Hrb.
Qed.

(** The loader builds well-formed networks. *)
Lemma red_cargada_bien_formada rb : red_cargada rb → red_bien_formada rb.
Proof.
  induction 1 as [|rb aristas _ IH|rb df nombre_nodo _ IH].
  - by intros v info.
  - exact IH.
  - by apply cargar_cpt_bien_formada.
Qed.

(** ** Conditional lookup *)

Lemma filter_vacio {A} (P : A → Prop) `{∀ x, Decision (P x)} (l : list A) :
  (∀ x, x ∈ l → ¬ P x) → filter P l = [].
Proof.
  induction l as [|x l IH]; intros Hl; [done|].
  rewrite filter_cons_False by (apply Hl; left).
  apply IH. intros y Hy. apply Hl. by right.
Qed.

Lemma prueba_padres_coincide info ev f :
  forallb (λ padre, prueba_padre (data info) ev padre f) (padres info) = true →
  fila_coincide info ev f.
Proof.
  intros Hall padre x i Hin Hev Hi.
  rewrite forallb_forall in Hall.
  specialize (Hall padre). unfold prueba_padre in Hall.
  rewrite Hev, Hi in Hall. apply Hall. by apply list_elem_of_In.
Qed.

Lemma sin_fila_con_valor info ev valor iv :
  indice (columna_valor info) (columnas (data info)) = Some iv →
  (∀ f, f ∈ filas (data info) → ¬ fila_coincide info ev f) ∨
  (∀ f, f ∈ filas (data info) → fila_coincide info ev f →
        ¬ fila_con_valor info valor f) →
  filter (λ f, valor_igual (celda iv f) valor)
    (filter (λ f, forallb (λ padre, prueba_padre (data info) ev padre f)
                    (padres info))
       (filas (data info))) = [].
Proof.
  intros Hiv Hsin. apply filter_vacio.
  intros f [Hall Hf]%list_elem_of_filter Hval.
  apply Is_true_true, prueba_padres_coincide in Hall.
  destruct Hsin as [Hsin|Hsin].
  - by apply (Hsin f).
  - apply (Hsin f Hf Hall). exists iv. split; [done|]. by apply Is_true_true.
Qed.

Lemma obtener_probabilidad_sin_fila rb variable info valor ev :
  dict_get (cpts rb) variable = Some info →
  cpt_bien_formada info →
  (∀ f, f ∈ filas (data info) → ¬ fila_coincide info ev f) ∨
  (∀ f, f ∈ filas (data info) → fila_coincide info ev f →
        ¬ fila_con_valor info valor f) →
  obtener_probabilidad rb variable valor ev = Ok 0%float.
Proof.
  intros Hinfo Hbf Hsin. unfold obtener_probabilidad. rewrite Hinfo.
  destruct (indice_Some _ _ (cpt_bien_formada_valor _ Hbf)) as [iv Hiv].
  pose proof (sin_fila_con_valor info ev valor iv Hiv Hsin) as Hvacio.
  destruct (padres info) as [|p ps] eqn:Hps.
  - rewrite (primera_con_valor_total _ _ _ iv Hiv).
    rewrite filter_vacio; [done|]. intros f Hf Hval.
    assert (fila_coincide info ev f) as Hco.
    { intros padre x i Hin. rewrite Hps in Hin. by apply elem_of_nil in Hin. }
    destruct Hsin as [Hsin|Hsin]; [by apply (Hsin f)|].
    apply (Hsin f Hf Hco). exists iv. split; [done|]. by apply Is_true_true.
  - rewrite <-Hps in *.
    rewrite <-(const_fmap (λ _ : fila, true)) by done.
    rewrite filtrar_padres_ok by by apply cpt_bien_formada_padres.
    cbn [mbind resultado_bind].
    destruct (filas (df_filtrar _ _)); [done|].
    rewrite (primera_con_valor_filtrada _ _ _ _ iv Hiv).
    match goal with
    | |- Ok (match ?l with [] => _ | _ :: _ => _ end) = _ =>
        replace l with (@nil fila) by (symmetry; exact Hvacio)
    end.
    done.
Qed.

(** C2. In a network built by the loader, for a variable with a registered
    CPT, a value and a partial parent assignment: when no row of the table
    matches the parent filter, or no row that does has the requested value
    in its value column, [obtener_probabilidad] returns exactly 0.0 and
    raises nothing. *)
Theorem obtener_probabilidad_cero rb variable info valor ev :
  red_cargada rb →
  dict_get (cpts rb) variable = Some info →
  (∀ f, f ∈ filas (data info) → ¬ fila_coincide info ev f) ∨
  (∀ f, f ∈ filas (data info) → fila_coincide info ev f →
        ¬ fila_con_valor info valor f) →
  obtener_probabilidad rb variable valor ev = Ok 0%float.
Proof.
  intros Hrb Hinfo. apply obtener_probabilidad_sin_fila; [done|].
  by eapply red_cargada_bien_formada.
Qed.

(** C6. For a root variable (empty parent list) the lookup gives the same
    result whatever parent evidence it is given: the filter is skipped and
    the row is found by the value column alone. *)
Theorem obtener_probabilidad_raiz rb variable info valor ev1 ev2 :
  dict_get (cpts rb) variable = Some info →
  padres info = [] →
  obtener_probabilidad rb variable valor ev1 =
    obtener_probabilidad rb variable valor ev2 ∧
  obtener_probabilidad rb variable valor ev1 =
    primera_con_valor (data info) (columna_valor info) valor.
Proof.
  intros Hinfo Hps. unfold obtener_probabilidad. by rewrite Hinfo, Hps.
Qed.

(** ** The monad *)

Lemma bind_ok {A B} (m : M A) (f : A → M B) σ a σ' :
  m σ = (Ok a, σ') → (m ≫= f) σ = f a σ'.
Proof. unfold mbind, M_bind. by intros ->. Qed.

Lemma bind_error {A B} (m : M A) (f : A → M B) σ e σ' :
  m σ = (Error e, σ') → (m ≫= f) σ = (Error e, σ').
Proof. unfold mbind, M_bind. by intros ->. Qed.

Lemma dict_getitem_run l k σ :
  dict_getitem l k σ =
  match dict_get (contenido σ l) k with
  | Some v => (Ok v, σ)
  | None => (Error (KeyError k), σ)
  end.
Proof.
  unfold dict_getitem, leer, mbind, M_bind. by destruct (dict_get _ _).
Qed.

Lemma obtener_probabilidad_registrada rb variable valor ev p :
  obtener_probabilidad rb variable valor ev = Ok p →
  ∃ info, cpts_getitem rb variable = Ok info.
Proof.
  unfold obtener_probabilidad, cpts_getitem.
  destruct (dict_get (cpts rb) variable); [eauto|done].
Qed.

(** ** Joint probability: pruning *)

Lemma calcular_bucle_paso rb l variable resto prob expl σ p :
  factor_de rb (contenido σ l) variable = Ok p →
  calcular_bucle rb l (variable :: resto) prob expl σ =
  let σ' := {| memoria := memoria σ; consola := consola σ;
               archivos := archivos σ;
               llamadas := llamadas σ ++
                             [llamada_de rb (contenido σ l) variable] |} in
  if (p =? 0)%float then (Ok (0%float, []), σ')
  else
    (x ← elevar (cpts_getitem rb variable);
     calcular_bucle rb l resto (prob * p)%float
       (expl ++
        [match padres x with
         | _ :: _ =>
             FactorCondicional variable
               (default NaN (dict_get (contenido σ l) variable))
               (reunir_padres rb variable (contenido σ l)) p
         | [] =>
             FactorRaiz variable
               (default NaN (dict_get (contenido σ l) variable)) p
         end])) σ'.
Proof.
  unfold factor_de, llamada_de. intros Hp.
  destruct (dict_get (contenido σ l) variable) as [valor|] eqn:Hval; [|done].
  cbn [calcular_bucle].
  rewrite (bind_ok _ _ σ valor σ) by (by rewrite dict_getitem_run, Hval).
  rewrite (bind_ok _ _ σ (contenido σ l) σ) by done.
  erewrite bind_ok; last by (unfold llamar_obtener_probabilidad; rewrite Hp).
  simpl. by destruct (p =? 0)%float.
Qed.

Lemma calcular_bucle_poda rb l pre v post :
  ∀ prob expl σ,
    (∀ u, u ∈ pre →
       ∃ p, factor_de rb (contenido σ l) u = Ok p ∧ (p =? 0)%float = false) →
    (∃ p0, factor_de rb (contenido σ l) v = Ok p0 ∧ (p0 =? 0)%float = true) →
    calcular_bucle rb l (pre ++ v :: post) prob expl σ =
    (Ok (0%float, []),
     {| memoria := memoria σ; consola := consola σ; archivos := archivos σ;
        llamadas := llamadas σ ++
                      (llamada_de rb (contenido σ l) <$> pre ++ [v]) |}).
Proof.
  induction pre as [|u pre IH]; intros prob expl σ Hpre (p0 & Hp0 & Hcero).
  - cbn [app]. rewrite (calcular_bucle_paso _ _ _ _ _ _ _ p0 Hp0).
    cbn zeta. by rewrite Hcero.
  - destruct (Hpre u) as (p & Hp & Hno); [left|].
    cbn [app]. rewrite (calcular_bucle_paso _ _ _ _ _ _ _ p Hp).
    cbn zeta. rewrite Hno.
    assert (∃ info, cpts_getitem rb u = Ok info) as [info Hinfo].
    { unfold factor_de in Hp. destruct (dict_get _ u); [|done].
      by eapply obtener_probabilidad_registrada. }
    erewrite bind_ok; last by (unfold elevar; rewrite Hinfo).
    rewrite IH.
    + cbn [memoria consola archivos llamadas]. rewrite fmap_cons.
      by rewrite <-app_assoc.
    + intros u' Hu'. apply Hpre. by right.
    + by exists p0.
Qed.

(** C3. In the chain-rule evaluation of an assignment over the variables of
    the network, when the factors of the variables before [v] are found and
    are not 0 and the factor of [v] is exactly 0, the evaluation returns the
    joint probability 0 with no explanation; the lookups made are those of
    the variables up to [v], in order, and none for a later variable: their
    number is the position of [v], whatever the number of variables. *)
Theorem calcular_probabilidad_conjunta_poda rb pre v post l σ :
  (∀ u, u ∈ pre →
     ∃ p, factor_de rb (contenido σ l) u = Ok p ∧ (p =? 0)%float = false) →
  (∃ p0, factor_de rb (contenido σ l) v = Ok p0 ∧ (p0 =? 0)%float = true) →
  ∃ σ',
    calcular_probabilidad_conjunta rb (pre ++ v :: post) l σ =
      (Ok (0%float, []), σ') ∧
    llamadas σ' = llamadas σ ++ (llamada_de rb (contenido σ l) <$> pre ++ [v]) ∧
    length (llamadas σ') = length (llamadas σ) + S (length pre) ∧
    memoria σ' = memoria σ ∧ consola σ' = consola σ ∧ archivos σ' = archivos σ.
Proof.
  intros Hpre Hv. eexists. split.
  - unfold calcular_probabilidad_conjunta. by apply calcular_bucle_poda.
  - cbn [memoria consola archivos llamadas]. split_and!; try done.
    rewrite !length_app, length_fmap, length_app. simpl. lia.
Qed.

(** ** The store: what a computation leaves untouched *)

Lemma marco_ret {A} n (a : A) (Q : A → Prop) : Q a → marco n (mret a) Q.
Proof. intros HQ σ Hn. cbn. split_and!; [done..|]. by intros ? [= <-]. Qed.

Lemma marco_bind {A B} n (m : M A) (f : A → M B) (Q1 : A → Prop) (Q2 : B → Prop) :
  marco n m Q1 → (∀ a, Q1 a → marco n (f a) Q2) → marco n (m ≫= f) Q2.
Proof.
  intros Hm Hf σ Hn. destruct (Hm σ Hn) as (Hn1 & Ht1 & HQ1).
  unfold mbind, M_bind. destruct (m σ) as [[a|e] σ1]; simpl in *.
  - destruct (Hf a (HQ1 a eq_refl) σ1 Hn1) as (Hn2 & Ht2 & HQ2).
    split_and!; [done| |done]. by rewrite Ht2.
  - split_and!; done.
Qed.

Lemma marco_foldM {A B} n (f : B → A → M B) (Q : B → Prop) l b :
  Q b → (∀ b x, Q b → marco n (f b x) Q) → marco n (foldM f l b) Q.
Proof.
  intros Hb Hf. revert b Hb. induction l as [|x l IH]; intros b Hb.
  - by apply marco_ret.
  - apply (marco_bind _ _ _ Q); auto.
Qed.

Lemma marco_lanzar {A} n e (Q : A → Prop) : marco n (lanzar e) Q.
Proof. intros σ Hn. cbn. split_and!; done. Qed.

Lemma marco_elevar {A} n (r : resultado A) : marco n (elevar r) (λ a, r = Ok a).
Proof. intros σ Hn. cbn. split_and!; done. Qed.

Lemma marco_leer n l : marco n (leer l) (λ _, True).
Proof. intros σ Hn. cbn. split_and!; done. Qed.

Lemma marco_dict_getitem n l k : marco n (dict_getitem l k) (λ _, True).
Proof.
  apply (marco_bind _ _ _ _ _ (marco_leer n l)). intros d _.
  destruct (dict_get d k); [by apply marco_ret|apply marco_lanzar].
Qed.

Lemma marco_dict_copy n l : marco n (dict_copy l) (λ a, n ≤ a).
Proof.
  intros σ Hn. cbn. rewrite length_app. split_and!; [lia| |].
  - by apply take_app_le.
  - by intros a [= <-].
Qed.

Lemma marco_dict_setitem n l k v :
  n ≤ l → marco n (dict_setitem l k v) (λ _, True).
Proof.
  intros Hl σ Hn. cbn. rewrite length_alter. split_and!; [done| |done].
  by apply take_alter_ge.
Qed.

Lemma marco_log n mostrar archivo msg :
  marco n (log_traza mostrar archivo msg) (λ _, True).
Proof. intros σ Hn. cbn. split_and!; done. Qed.

Lemma marco_escribir n ruta ms : marco n (escribir ruta ms) (λ _, True).
Proof. intros σ Hn. cbn. split_and!; done. Qed.

Lemma marco_llamar n rb variable valor ev :
  marco n (llamar_obtener_probabilidad rb variable valor ev) (λ _, True).
Proof. intros σ Hn. cbn. split_and!; done. Qed.

Lemma marco_calcular_bucle n rb l vs prob expl :
  marco n (calcular_bucle rb l vs prob expl) (λ _, True).
Proof.
  revert prob expl. induction vs as [|v vs IH]; intros prob expl.
  - by apply marco_ret.
  - cbn [calcular_bucle].
    apply (marco_bind _ _ _ _ _ (marco_dict_getitem n l v)). intros valor _.
    apply (marco_bind _ _ _ _ _ (marco_leer n l)). intros asg _.
    apply (marco_bind _ _ _ _ _ (marco_llamar n _ _ _ _)). intros p _.
    destruct (p =? 0)%float; [by apply marco_ret|].
    apply (marco_bind _ _ _ _ _ (marco_elevar n _)). intros info _.
    apply IH.
Qed.

Lemma marco_enumerar_combinaciones n rb vs l :
  marco n (enumerar_combinaciones rb vs l) (Forall (λ a, n ≤ a)).
Proof.
  revert l. induction vs as [|v vs IH]; intros l; cbn [enumerar_combinaciones].
  - apply (marco_bind _ _ _ _ _ (marco_dict_copy n l)). intros a Ha.
    apply marco_ret. by constructor.
  - apply (marco_bind _ _ _ _ _ (marco_elevar n _)). intros dom _.
    apply marco_foldM; [constructor|]. intros acc x Hacc.
    apply (marco_bind _ _ _ _ _ (marco_dict_copy n l)). intros a Ha.
    apply (marco_bind _ _ _ _ _ (marco_dict_setitem n a v x Ha)). intros _ _.
    apply (marco_bind _ _ _ _ _ (IH a)). intros mas Hmas.
    apply marco_ret. by apply Forall_app.
Qed.

Lemma marco_lookup {A} n (m : M A) Q σ i :
  marco n m Q → n ≤ length (memoria σ) → i < n →
  memoria (m σ).2 !! i = memoria σ !! i.
Proof.
  intros Hm Hn Hi. destruct (Hm σ Hn) as (_ & Ht & _).
  by rewrite <-(lookup_take_lt _ n i), Ht, lookup_take_lt.
Qed.

(** One step of a frame proof, by the shape of the computation. *)
Ltac marco_paso :=
  lazymatch goal with
  | |- marco _ (mret _) _ => by apply marco_ret
  | |- marco _ (_ ≫= _) _ => eapply marco_bind; [|intros ? ?]
  | |- marco _ (leer _) _ => apply marco_leer
  | |- marco _ (lanzar _) _ => apply marco_lanzar
  | |- marco _ (elevar _) _ => apply marco_elevar
  | |- marco _ (log_traza _ _ _) _ => apply marco_log
  | |- marco _ (escribir _ _) _ => apply marco_escribir
  | |- marco _ (dict_copy _) _ => apply marco_dict_copy
  | |- marco _ (dict_setitem _ _ _) _ => by apply marco_dict_setitem
  | |- marco _ (calcular_probabilidad_conjunta _ _ _) _ =>
      apply marco_calcular_bucle
  | |- marco _ (enumerar_combinaciones _ _ _) _ =>
      apply marco_enumerar_combinaciones
  | |- marco _ (foldM _ _ _) _ =>
      apply (marco_foldM _ _ (λ _, True)); [done|intros ? ? _]
  | |- marco _ (if ?b then _ else _) _ => destruct b
  | |- marco _ (match ?x with _ => _ end) _ => destruct x
  | |- marco _ (let '(_, _) := ?x in _) _ => destruct x
  end.

Section marco_inferencia.
Variable rb : RedBayesiana.
Variable todas_variables : list string.
Variable consulta : string.
Variable evidencia : loc.
Variable mostrar_traza : bool.
Variable archivo_traza : option string.
Variable n : nat.

Lemma marco_abrir_traza :
  marco n (abrir_traza consulta evidencia archivo_traza) (λ _, True).
Proof. unfold abrir_traza. repeat marco_paso. Qed.

Lemma marco_acumular acc combinacion :
  marco n (acumular rb todas_variables mostrar_traza archivo_traza acc
             combinacion) (λ _, True).
Proof. unfold acumular. repeat marco_paso. Qed.

Lemma marco_sumar_valor variables_ocultas resultados valor_consulta :
  marco n (sumar_valor rb todas_variables consulta evidencia mostrar_traza
             archivo_traza variables_ocultas resultados valor_consulta)
    (λ _, True).
Proof.
  unfold sumar_valor. repeat marco_paso. apply marco_acumular.
Qed.

Lemma marco_sumas :
  marco n (sumas rb todas_variables consulta evidencia mostrar_traza
             archivo_traza) (λ _, True).
Proof.
  unfold sumas. repeat marco_paso; [apply marco_abrir_traza|].
  apply marco_sumar_valor.
Qed.

Lemma marco_normalizar resultados :
  marco n (normalizar consulta evidencia mostrar_traza archivo_traza resultados)
    (λ _, True).
Proof. unfold normalizar, normalizar_valor. repeat marco_paso. Qed.

Lemma marco_inferencia_por_enumeracion :
  marco n (inferencia_por_enumeracion rb todas_variables consulta evidencia
             mostrar_traza archivo_traza) (λ _, True).
Proof.
  unfold inferencia_por_enumeracion.
  eapply marco_bind; [apply marco_sumas|]. intros resultados _.
  apply marco_normalizar.
Qed.
End marco_inferencia.

(** C10. [inferencia_por_enumeracion] does not change the caller's evidence
    dict: it writes only to the copies it makes (the base assignment is a
    copy of the evidence and every step of the enumeration extends a copy of
    the current assignment), so when it ends, with a distribution, with the
    impossible-evidence outcome or with an exception, the evidence dict, as
    every dict that exists at the call, has the content it has at the call. *)
Theorem inferencia_no_muta_evidencia rb todas_variables consulta evidencia
    mostrar_traza archivo_traza σ e :
  memoria σ !! evidencia = Some e →
  let σ' := (inferencia_por_enumeracion rb todas_variables consulta evidencia
               mostrar_traza archivo_traza σ).2 in
  memoria σ' !! evidencia = Some e ∧
  take (length (memoria σ)) (memoria σ') = memoria σ.
Proof.
  intros He σ'.
  pose proof (marco_inferencia_por_enumeracion rb todas_variables consulta
                evidencia mostrar_traza archivo_traza (length (memoria σ)))
    as Hmarco.
  split.
  - subst σ'. erewrite marco_lookup; [done..|]. by eapply lookup_lt_Some.
  - destruct (Hmarco σ) as (_ & Ht & _); [done|].
    subst σ'. by rewrite Ht, firstn_all.
Qed.

(** ** Value domains *)

Lemma elem_of_unique x l : x ∈ unique l ↔ x ∈ l.
Proof.
  induction l as [|y l IH]; [done|]. cbn [unique].
  rewrite !elem_of_cons, list_elem_of_filter, IH.
  destruct (decide (x = y)); tauto.
Qed.

Lemma NoDup_unique l : NoDup (unique l).
Proof.
  induction l as [|y l IH]; cbn [unique]; [constructor|].
  apply NoDup_cons. split.
  - rewrite list_elem_of_filter. by intros [? _].
  - by apply NoDup_filter.
Qed.

Lemma StronglySorted_filter {A} (R : A → A → Prop) (P : A → Prop)
    `{∀ x, Decision (P x)} l :
  StronglySorted R l → StronglySorted R (filter P l).
Proof.
  induction 1 as [|x l Hl IH Hx]; [constructor|].
  rewrite filter_cons. destruct (decide (P x)); [|done].
  constructor; [done|]. rewrite Forall_forall in Hx |- *.
  intros y [_ Hy]%list_elem_of_filter. by apply Hx.
Qed.

Lemma StronglySorted_cambio {A} (R R' : A → A → Prop) l :
  (∀ x y, x ∈ l → y ∈ l → R x y → R' x y) →
  StronglySorted R l → StronglySorted R' l.
Proof.
  intros HR Hl. induction Hl as [|x l Hl IH Hx]; [constructor|].
  constructor.
  - apply IH. intros y z Hy Hz. apply HR; by right.
  - rewrite Forall_forall in Hx |- *. intros y Hy.
    apply HR; [left|by right|by apply Hx].
Qed.

Lemma unique_ordenada l :
  StronglySorted (λ x y, primer_indice x l < primer_indice y l) (unique l).
Proof.
  induction l as [|a l IH]; cbn [unique]; [constructor|].
  constructor.
  - apply (StronglySorted_cambio
             (λ x y, primer_indice x l < primer_indice y l)).
    + intros x y [Hx _]%list_elem_of_filter [Hy _]%list_elem_of_filter.
      cbn [primer_indice]. rewrite !decide_False by done. lia.
    + by apply StronglySorted_filter.
  - apply Forall_forall. intros y [Hy _]%list_elem_of_filter.
    cbn [primer_indice]. rewrite decide_True by done.
    rewrite decide_False by done. lia.
Qed.

Lemma valores_posibles_dominio rb v dom :
  valores_posibles rb v = Ok dom → dominio_de rb v dom.
Proof.
  unfold valores_posibles, cpts_getitem, dominio_de.
  destruct (dict_get (cpts rb) v) as [info|]; [|done]. cbn.
  destruct (columna (data info) (columna_valor info)) as [col|] eqn:Hcol;
    [|done].
  cbn. intros [= <-]. exists info, col. split_and!; [done..|].
  split_and!.
  - apply NoDup_filter, NoDup_unique.
  - intros x. rewrite list_elem_of_filter, elem_of_unique.
    destruct x; cbn; intuition congruence.
  - apply StronglySorted_filter, unique_ordenada.
Qed.

Lemma valores_posibles_bien_formada rb v info :
  dict_get (cpts rb) v = Some info → cpt_bien_formada info →
  ∃ dom, valores_posibles rb v = Ok dom.
Proof.
  intros Hinfo Hbf. unfold valores_posibles, cpts_getitem. rewrite Hinfo. cbn.
  destruct (indice_Some _ _ (cpt_bien_formada_valor _ Hbf)) as [i Hi].
  unfold columna. rewrite Hi. cbn. eauto.
Qed.

(** ** Cartesian product and extension *)

Lemma elem_of_producto doms tupla :
  tupla ∈ producto doms ↔ Forall2 (λ x dom, x ∈ dom) tupla doms.
Proof.
  revert tupla. induction doms as [|dom doms IH]; intros tupla; cbn [producto].
  - rewrite list_elem_of_singleton. split; [intros ->; constructor|].
    by intros ->%Forall2_nil_inv_r.
  - rewrite list_elem_of_bind. split.
    + intros (x & (t & -> & Ht)%list_elem_of_fmap & Hx).
      constructor; [done|]. by apply IH.
    + intros (x & t & Hx & Ht & ->)%Forall2_cons_inv_r.
      exists x. split; [|done]. apply list_elem_of_fmap.
      exists t. split; [done|]. by apply IH.
Qed.

Lemma extender_cons base v vs x tupla :
  extender base (v :: vs) (x :: tupla) = extender (dict_set base v x) vs tupla.
Proof. done. Qed.

Lemma extender_ajeno base vs tupla k :
  k ∉ vs → dict_get (extender base vs tupla) k = dict_get base k.
Proof.
  revert base tupla. induction vs as [|v vs IH]; intros base tupla Hk; [done|].
  destruct tupla as [|x tupla]; [done|].
  apply not_elem_of_cons in Hk as [Hne Hk].
  rewrite extender_cons, IH by done. by apply dict_get_set_ne.
Qed.

Lemma extender_asignada base vs tupla i v x :
  NoDup vs → vs !! i = Some v → tupla !! i = Some x →
  dict_get (extender base vs tupla) v = Some x.
Proof.
  revert base tupla i.
  induction vs as [|v' vs IH]; intros base tupla i Hnd Hv Hx; [done|].
  destruct tupla as [|x' tupla]; [done|].
  apply NoDup_cons in Hnd as [Hv' Hnd]. rewrite extender_cons.
  destruct i as [|i]; simpl in *.
  - injection Hv as ->. injection Hx as ->.
    rewrite extender_ajeno by done. apply dict_get_set_eq.
  - by eapply IH.
Qed.

(** ** Enumeration *)

Lemma enumerar_bucle rb v vs doms l base :
  (∀ l base σ,
     memoria σ !! l = Some base →
     ∃ locs σ',
       enumerar_combinaciones rb vs l σ = (Ok locs, σ') ∧
       Forall2 (λ a d, memoria σ' !! a = Some d) locs
         (extender base vs <$> producto doms)) →
  ∀ dom acc σ,
    memoria σ !! l = Some base →
    ∃ locs σ',
      foldM
        (λ combinaciones valor,
           nueva_asignacion ← dict_copy l;
           dict_setitem nueva_asignacion v valor;;
           mas ← enumerar_combinaciones rb vs nueva_asignacion;
           mret (combinaciones ++ mas))
        dom acc σ = (Ok (acc ++ locs), σ') ∧
      Forall2 (λ a d, memoria σ' !! a = Some d) locs
        (extender base (v :: vs) <$> (x ← dom; (x ::.) <$> producto doms)) ∧
      (∀ i, i < length (memoria σ) → memoria σ' !! i = memoria σ !! i).
Proof.
  intros IH. induction dom as [|x dom IHdom]; intros acc σ Hl.
  - exists [], σ. cbn. rewrite app_nil_r. split_and!; [done|constructor|done].
  - set (a := length (memoria σ)).
    set (σ2 := con_memoria σ (memoria σ ++ [contenido σ l])).
    set (σ3 := con_memoria σ2
                 (alter (λ d, dict_set d v x) a (memoria σ2))).
    assert (contenido σ l = base) as Hbase by (unfold contenido; by rewrite Hl).
    assert (memoria σ3 !! a = Some (dict_set base v x)) as Ha.
    { subst σ3 σ2. cbn. rewrite list_lookup_alter_eq.
      by rewrite list_lookup_middle, Hbase. }
    assert (∀ i, i < a → memoria σ3 !! i = memoria σ !! i) as H13.
    { intros i Hi. subst σ3 σ2. cbn.
      rewrite list_lookup_alter_ne by lia. by apply lookup_app_l. }
    destruct (IH a _ σ3 Ha) as (locs1 & σ4 & Henum & Hlocs1).
    assert (∀ i, i < length (memoria σ3) →
                 memoria σ4 !! i = memoria σ3 !! i) as H34.
    { intros i Hi.
      pose proof (marco_lookup (length (memoria σ3))
                    (enumerar_combinaciones rb vs a) _ σ3 i
                    (marco_enumerar_combinaciones _ rb vs a)) as Hm.
      rewrite Henum in Hm. by apply Hm. }
    assert (length (memoria σ3) ≤ length (memoria σ4)) as Hlen4.
    { destruct (marco_enumerar_combinaciones (length (memoria σ3)) rb vs a σ3)
        as (Hlen & _); [done|]. by rewrite Henum in Hlen. }
    assert (a < length (memoria σ3)) as Ha3 by (by eapply lookup_lt_Some).
    assert (l < a) as Hla by (by eapply lookup_lt_Some).
    assert (memoria σ4 !! l = Some base) as Hl4.
    { rewrite H34 by lia. by rewrite H13. }
    destruct (IHdom (acc ++ locs1) σ4 Hl4) as (locs2 & σ5 & Hfold & Hlocs2 & H45).
    exists (locs1 ++ locs2), σ5. split_and!.
    + cbn [foldM].
      erewrite bind_ok; [by rewrite Hfold, app_assoc|].
      erewrite bind_ok; [|reflexivity].
      erewrite bind_ok; [|reflexivity].
      fold a σ2 σ3. by rewrite (bind_ok _ _ _ _ _ Henum).
    + cbn [mbind list_bind]. rewrite fmap_app. apply Forall2_app; [|done].
      rewrite <-list_fmap_compose.
      eapply Forall2_impl; [exact Hlocs1|].
      intros i t Hi. cbn beta in Hi |- *. rewrite H45; [done|].
      by apply lookup_lt_Some with t.
    + intros i Hi. rewrite H45, H34, H13 by lia. done.
Qed.

Lemma enumerar_combinaciones_producto rb vs doms :
  Forall2 (λ v dom, valores_posibles rb v = Ok dom) vs doms →
  ∀ l base σ,
    memoria σ !! l = Some base →
    ∃ locs σ',
      enumerar_combinaciones rb vs l σ = (Ok locs, σ') ∧
      Forall2 (λ a d, memoria σ' !! a = Some d) locs
        (extender base vs <$> producto doms).
Proof.
  induction 1 as [|v dom vs doms Hv Hvs IH]; intros l base σ Hl.
  - eexists _, _. split; [reflexivity|]. cbn.
    constructor; [|constructor]. unfold contenido. rewrite Hl. cbn.
    by apply list_lookup_middle.
  - destruct (enumerar_bucle rb v vs doms l base IH dom [] σ Hl)
      as (locs & σ' & Hfold & Hlocs & _).
    exists locs, σ'. split; [|done].
    cbn [enumerar_combinaciones].
    erewrite bind_ok; [exact Hfold|]. unfold elevar. by rewrite Hv.
Qed.

Lemma valores_posibles_todas rb vs :
  (∀ v, v ∈ vs →
     ∃ info, dict_get (cpts rb) v = Some info ∧ cpt_bien_formada info) →
  ∃ doms, Forall2 (λ v dom, valores_posibles rb v = Ok dom) vs doms.
Proof.
  induction vs as [|v vs IH]; intros Hvs.
  - exists []. constructor.
  - destruct (Hvs v) as (info & Hinfo & Hbf); [left|].
    destruct (valores_posibles_bien_formada rb v info Hinfo Hbf) as [dom Hdom].
    destruct IH as [doms Hdoms].
    { intros v' Hv'. apply Hvs. by right. }
    exists (dom :: doms). by constructor.
Qed.

(** C1. In a network built by the loader, for a list of hidden variables
    that each have a registered CPT and a base assignment,
    [enumerar_combinaciones] returns, in order, exactly the assignments that
    extend the base with the tuples of the Cartesian product of the
    variables' domains; the domain of a variable is the distinct,
    non-missing values of the value column of its CPT in the order of their
    first occurrences. Each result agrees with the base outside the hidden
    variables and gives each hidden variable its value of the tuple. With no
    hidden variable the result is one assignment, equal to the base. *)
Theorem enumerar_combinaciones_cartesiano rb vs l base σ :
  red_cargada rb →
  (∀ v, v ∈ vs → is_Some (dict_get (cpts rb) v)) →
  memoria σ !! l = Some base →
  ∃ doms locs σ',
    Forall2 (dominio_de rb) vs doms ∧
    enumerar_combinaciones rb vs l σ = (Ok locs, σ') ∧
    Forall2 (λ a d, memoria σ' !! a = Some d) locs
      (extender base vs <$> producto doms) ∧
    (∀ tupla, tupla ∈ producto doms ↔ Forall2 (λ x dom, x ∈ dom) tupla doms) ∧
    (∀ tupla k, tupla ∈ producto doms → k ∉ vs →
       dict_get (extender base vs tupla) k = dict_get base k) ∧
    (NoDup vs →
     ∀ tupla i v x, tupla ∈ producto doms →
       vs !! i = Some v → tupla !! i = Some x →
       dict_get (extender base vs tupla) v = Some x) ∧
    (vs = [] → ∃ a, locs = [a] ∧ memoria σ' !! a = Some base).
Proof.
  intros Hrb Hvs Hl.
  destruct (valores_posibles_todas rb vs) as [doms Hdoms].
  { intros v [info Hinfo]%Hvs. exists info. split; [done|].
    by eapply red_cargada_bien_formada. }
  destruct (enumerar_combinaciones_producto rb vs doms Hdoms l base σ Hl)
    as (locs & σ' & Henum & Hlocs).
  exists doms, locs, σ'. split_and!; [|done..| | | |].
  - eapply Forall2_impl; [exact Hdoms|]. apply valores_posibles_dominio.
  - intros tupla. apply elem_of_producto.
  - intros tupla k _ Hk. by apply extender_ajeno.
  - intros Hnd tupla i v x _ Hv Hx. by eapply extender_asignada.
  - intros ->. apply Forall2_nil_inv_l in Hdoms as ->.
    cbn in Hlocs. apply Forall2_cons_inv_r in Hlocs as (a & r & Ha & Hr & ->).
    apply Forall2_nil_inv_r in Hr as ->. by exists a.
Qed.

(** ** Normalization *)

Lemma positivo_no_cero (t : float) :
  (0 <? t)%float = true → (t =? 0)%float = false.
Proof.
  intros Hpos. rewrite FloatAxioms.ltb_spec in Hpos.
  rewrite FloatAxioms.eqb_spec.
  unfold SFltb, SFeqb in *.
  change (Prim2SF 0) with (S754_zero false) in *.
  destruct (Prim2SF t) as [s|s| |s m e]; simpl in *; try discriminate;
    destruct s; try discriminate; reflexivity.
Qed.

Lemma bind_log {B} mostrar archivo msg (f : unit → M B) σ :
  (log_traza mostrar archivo msg ≫= f) σ =
  f () (log_traza mostrar archivo msg σ).2.
Proof. done. Qed.

Lemma normalizar_bucle consulta mostrar archivo alpha items :
  ∀ rn σ,
    ∃ σ',
      foldM (normalizar_valor consulta mostrar archivo alpha) items rn σ =
        (Ok (fold_left (λ rn vp, dict_set rn vp.1 (vp.2 * alpha)%float)
               items rn), σ') ∧
      memoria σ' = memoria σ.
Proof.
  induction items as [|[valor prob] items IH]; intros rn σ.
  - by exists σ.
  - cbn [foldM fold_left]. unfold normalizar_valor at 2.
    destruct (IH (dict_set rn valor (prob * alpha)%float)
                (log_traza mostrar archivo
                   (MsgProbNormalizada consulta valor prob alpha
                      (prob * alpha)%float) σ).2) as (σ' & Hfold & Hmem).
    exists σ'. split; [|done].
    erewrite bind_ok; [exact Hfold|]. by rewrite bind_log.
Qed.

Lemma fold_dict_set_nuevas {K V W} `{EqDecision K} (g : W → V)
    (items : dict K W) :
  ∀ acc : dict K V,
    NoDup (dict_keys acc ++ dict_keys items) →
    fold_left (λ d kv, dict_set d kv.1 (g kv.2)) items acc =
    acc ++ (prod_map id g <$> items).
Proof.
  unfold dict_keys.
  induction items as [|[k w] items IH]; intros acc Hnd; csimpl.
  - by rewrite app_nil_r.
  - csimpl in Hnd.
    rewrite dict_set_fresh.
    + rewrite IH; [by rewrite <-app_assoc|].
      rewrite fmap_app. csimpl. rewrite <-app_assoc. done.
    + apply NoDup_app in Hnd as (_ & Hnd & _).
      intros Hk. apply (Hnd k Hk). left.
Qed.

Lemma dict_get_prod_map {K V W} `{EqDecision K} (g : V → W) (d : dict K V) k :
  dict_get (prod_map id g <$> d) k = g <$> dict_get d k.
Proof.
  induction d as [|[k' v] d IH]; csimpl; [done|].
  destruct (decide (k = k')); [done|apply IH].
Qed.

Lemma normalizar_positiva consulta evidencia mostrar archivo resultados σ :
  NoDup (dict_keys resultados) →
  (0 <? suma resultados)%float = true →
  ∃ σ',
    normalizar consulta evidencia mostrar archivo resultados σ =
      (Ok (Some (prod_map id (λ p, p * (1 / suma resultados))%float
                   <$> resultados)), σ') ∧
    memoria σ' = memoria σ.
Proof.
  intros Hnd Hpos. unfold normalizar.
  rewrite !bind_log. rewrite (positivo_no_cero _ Hpos). rewrite bind_log.
  match goal with
  | |- ∃ _, (_ ≫= _) ?σ0 = _ ∧ _ =>
      destruct (normalizar_bucle consulta mostrar archivo
                  (1 / suma resultados)%float resultados [] σ0)
        as (σ1 & Hfold & Hmem)
  end.
  rewrite (bind_ok _ _ _ _ _ Hfold).
  rewrite (fold_dict_set_nuevas (λ p, p * (1 / suma resultados))%float)
    by done.
  rewrite bind_log. eexists. split; [reflexivity|]. cbn. by rewrite Hmem.
Qed.

(** C4 (amended). For a mapping of accumulated sums whose total is strictly
    positive, the normalization returns a distribution over the same values
    with result[v] = sums[v] * (1/total) for every v; the sums
    {a: 2.0, b: 6.0} normalize to {a: 0.25, b: 0.75}, whose values sum to
    1.0. *)
Theorem normalizar_distribucion :
  (∀ consulta evidencia mostrar archivo resultados σ,
     NoDup (dict_keys resultados) →
     (0 <? suma resultados)%float = true →
     ∃ rn σ',
       normalizar consulta evidencia mostrar archivo resultados σ =
         (Ok (Some rn), σ') ∧
       dict_keys rn = dict_keys resultados ∧
       ∀ v p, dict_get resultados v = Some p →
              dict_get rn v = Some (p * (1 / suma resultados))%float) ∧
  (∀ consulta evidencia mostrar archivo σ,
     ∃ σ',
       normalizar consulta evidencia mostrar archivo
         [(Texto "a", 2%float); (Texto "b", 6%float)] σ =
         (Ok (Some [(Texto "a", 0.25%float); (Texto "b", 0.75%float)]), σ') ∧
       suma [(Texto "a", 0.25%float); (Texto "b", 0.75%float)] = 1%float).
Proof.
  split.
  - intros consulta evidencia mostrar archivo resultados σ Hnd Hpos.
    destruct (normalizar_positiva consulta evidencia mostrar archivo
                resultados σ Hnd Hpos) as (σ' & Hnorm & _).
    eexists _, σ'. split_and!; [exact Hnorm| |].
    + unfold dict_keys. rewrite <-list_fmap_compose.
      apply list_fmap_ext. by intros ? [].
    + intros v p Hv. by rewrite dict_get_prod_map, Hv.
  - intros consulta evidencia mostrar archivo σ.
    destruct (normalizar_positiva consulta evidencia mostrar archivo
                [(Texto "a", 2%float); (Texto "b", 6%float)] σ)
      as (σ' & Hnorm & _).
    + unfold dict_keys. cbn. apply NoDup_cons.
      split; [by intros ?%list_elem_of_singleton|apply NoDup_singleton].
    + reflexivity.
    + exists σ'. split; [exact Hnorm|reflexivity].
Qed.

(** The sums {a: 2.0, b: 6.0}: the total is 8.0. *)
Lemma normalizar_distribucion_testigo :
  ∃ rn σ',
    normalizar "X" 0 false None [(Texto "a", 2%float); (Texto "b", 6%float)]
      (estado_inicial []) = (Ok (Some rn), σ') ∧
    dict_keys rn = [Texto "a"; Texto "b"] ∧
    ∀ v p, dict_get [(Texto "a", 2%float); (Texto "b", 6%float)] v = Some p →
           dict_get rn v = Some (p * (1 / 8))%float.
Proof.
  apply (proj1 normalizar_distribucion "X" 0 false None
           [(Texto "a", 2%float); (Texto "b", 6%float)] (estado_inicial [])).
  - unfold dict_keys. cbn. apply NoDup_cons.
    split; [by intros ?%list_elem_of_singleton|apply NoDup_singleton].
  - reflexivity.
Defined.

(** The sums that the evidence B = x gives in the network [red_rara], and
    what the inference returns for them. *)
Example sumas_red_rara :
  (sumas red_rara ["A"; "B"] "A" 0 false None
     (estado_inicial [("B", Texto "x")])).1 =
  Ok [(Texto "a", 0x1p-1074%float); (Texto "b", 0x1p-1074%float)].
Proof. vm_compute. reflexivity. Qed.

Example inferencia_red_rara :
  (inferencia_por_enumeracion red_rara ["A"; "B"] "A" 0 false None
     (estado_inicial [("B", Texto "x")])).1 =
  Ok (Some [(Texto "a", infinity); (Texto "b", infinity)]).
Proof. vm_compute. reflexivity. Qed.

(** C4 as stated fails: when the total is subnormal, 1/total overflows and
    the returned values do not sum to 1.0 within the tolerance. Here the
    sums are {a: 2^-1074, b: 2^-1074}, the total is 2^-1073 and the
    distribution returned is {a: inf, b: inf}. *)
Lemma normalizar_suma_desborda :
  ¬ (∀ consulta evidencia mostrar archivo resultados σ,
       NoDup (dict_keys resultados) →
       (0 <? suma resultados)%float = true →
       ∃ rn σ',
         normalizar consulta evidencia mostrar archivo resultados σ =
           (Ok (Some rn), σ') ∧
         (∀ v p, dict_get resultados v = Some p →
                 dict_get rn v = Some (p * (1 / suma resultados))%float) ∧
         cerca_de_uno (suma rn) = true).
Proof.
  intros H.
  destruct (H "A" 0 false None
              [(Texto "a", 0x1p-1074%float); (Texto "b", 0x1p-1074%float)]
              (estado_inicial [("B", Texto "x")]))
    as (rn & σ' & Hnorm & _ & Hcerca).
  - unfold dict_keys. cbn. apply NoDup_cons.
    split; [by intros ?%list_elem_of_singleton|apply NoDup_singleton].
  - reflexivity.
  - vm_compute in Hnorm. injection Hnorm as <- _.
    vm_compute in Hcerca. discriminate.
Qed.

(** C5. When the accumulated sums of all the values of the query total
    exactly 0, [inferencia_por_enumeracion] returns [None]: no distribution,
    no mapping of zeros, and no division is made; the trace records the
    error. *)
Theorem inferencia_evidencia_imposible rb todas_variables consulta evidencia
    mostrar archivo σ resultados σ1 :
  sumas rb todas_variables consulta evidencia mostrar archivo σ =
    (Ok resultados, σ1) →
  (suma resultados =? 0)%float = true →
  ∃ σ',
    inferencia_por_enumeracion rb todas_variables consulta evidencia mostrar
      archivo σ = (Ok None, σ') ∧
    memoria σ' = memoria σ1 ∧
    (mostrar = true →
     consola σ' = consola σ1 ++ [MsgNormalizacion;
                                 MsgSumaTotal (suma resultados);
                                 MsgErrorSumaCero]).
Proof.
  intros Hsumas Hcero. unfold inferencia_por_enumeracion.
  rewrite (bind_ok _ _ _ _ _ Hsumas). unfold normalizar.
  rewrite !bind_log, Hcero, bind_log.
  eexists. split_and!; [reflexivity|done|].
  intros ->. cbn. by rewrite <-!app_assoc.
Qed.

(** Fumador = quizas matches no row of the table of Fumador: every joint
    probability is 0 and the inference returns [None]. *)
Lemma inferencia_evidencia_imposible_testigo :
  ∃ σ',
    inferencia_por_enumeracion red_ejemplo ["Edad"; "Fumador"] "Edad" 0 true
      None (estado_inicial [("Fumador", Texto "quizas")]) = (Ok None, σ') ∧
    memoria σ' =
      [ [("Fumador", Texto "quizas")];
        [("Fumador", Texto "quizas"); ("Edad", Texto "joven")];
        [("Fumador", Texto "quizas"); ("Edad", Texto "joven")];
        [("Fumador", Texto "quizas"); ("Edad", Texto "adulto")];
        [("Fumador", Texto "quizas"); ("Edad", Texto "adulto")] ].
Proof.
  destruct (inferencia_evidencia_imposible red_ejemplo ["Edad"; "Fumador"]
              "Edad" 0 true None (estado_inicial [("Fumador", Texto "quizas")])
              [(Texto "joven", 0%float); (Texto "adulto", 0%float)]
              (sumas red_ejemplo ["Edad"; "Fumador"] "Edad" 0 true None
                 (estado_inicial [("Fumador", Texto "quizas")])).2)
    as (σ' & Hinf & Hmem & _).
  - vm_compute. reflexivity.
  - reflexivity.
  - exists σ'. split; [exact Hinf|]. rewrite Hmem. vm_compute. reflexivity.
Defined.

(** ** Variables without a CPT *)




(** ** The trace does not take part in the computation *)















Section traza.
Variable rb : RedBayesiana.
Variable todas_variables : list string.
Variable consulta : string.
Variable evidencia : loc.
Variables mostrar1 mostrar2 : bool.
Variables archivo1 archivo2 : option string.






End traza.


(** ** Order of the variables *)








(** ** Runs on the small network *)

(** Lookups in the table of Fumador: with its parent given, with no
    parent given (the first row with the value), and with a value of the
    parent that no row has. *)
Example obtener_probabilidad_red_ejemplo :
  obtener_probabilidad red_ejemplo "Fumador" (Texto "si")
    [("Edad", Texto "adulto")] = Ok 0.25%float ∧
  obtener_probabilidad red_ejemplo "Fumador" (Texto "si") [] = Ok 0.5%float ∧
  obtener_probabilidad red_ejemplo "Fumador" (Texto "si")
    [("Edad", Texto "mayor")] = Ok 0%float ∧
  obtener_probabilidad red_ejemplo "Fumador" (Texto "si")
    [("Edad", NaN)] = Ok 0%float.
Proof. vm_compute. done. Qed.

(** The four completions of the base {X: x} over Edad and Fumador, in the
    order of the enumeration. *)
Example enumerar_red_ejemplo :
  let '(r, σ') := enumerar_combinaciones red_ejemplo ["Edad"; "Fumador"] 0
                    (estado_inicial [("X", Texto "x")]) in
  r = Ok [3; 5; 8; 10] ∧
  contenido σ' <$> [3; 5; 8; 10] =
    [ [("X", Texto "x"); ("Edad", Texto "joven"); ("Fumador", Texto "si")];
      [("X", Texto "x"); ("Edad", Texto "joven"); ("Fumador", Texto "no")];
      [("X", Texto "x"); ("Edad", Texto "adulto"); ("Fumador", Texto "si")];
      [("X", Texto "x"); ("Edad", Texto "adulto"); ("Fumador", Texto "no")] ] ∧
  contenido σ' 0 = [("X", Texto "x")].
Proof. vm_compute. done. Qed.

(** P(Edad | Fumador = si): the sums 0.25 * 0.5 and 0.75 * 0.25, normalized
    by their total 0.3125. *)
Example inferencia_red_ejemplo :
  (inferencia_por_enumeracion red_ejemplo ["Edad"; "Fumador"] "Edad" 0 false
     None (estado_inicial [("Fumador", Texto "si")])).1 =
  Ok (Some [(Texto "joven", 0.125 * (1 / 0.3125));
            (Texto "adulto", 0.1875 * (1 / 0.3125))]%float) ∧
  cerca_de_uno (0 + 0.125 * (1 / 0.3125) + 0.1875 * (1 / 0.3125)) = true.
Proof. vm_compute. done. Qed.

(** P(Fumador) with no evidence: Edad is summed out. *)
Example inferencia_red_ejemplo_marginal :
  (inferencia_por_enumeracion red_ejemplo ["Edad"; "Fumador"] "Fumador" 0 false
     None (estado_inicial [])).1 =
  Ok (Some [(Texto "si", 0.3125%float); (Texto "no", 0.6875%float)]).
Proof. vm_compute. done. Qed.

(** ** The statements on the small network *)

Lemma red_cargada_red_ejemplo : red_cargada red_ejemplo.
Proof. repeat constructor. Defined.

(** The enumeration of Edad and Fumador over the empty base. *)
Lemma enumerar_combinaciones_cartesiano_testigo :
  ∃ doms locs σ',
    Forall2 (dominio_de red_ejemplo) ["Edad"; "Fumador"] doms ∧
    enumerar_combinaciones red_ejemplo ["Edad"; "Fumador"] 0
      (estado_inicial []) = (Ok locs, σ') ∧
    Forall2 (λ a d, memoria σ' !! a = Some d) locs
      (extender [] ["Edad"; "Fumador"] <$> producto doms) ∧
    (∀ tupla, tupla ∈ producto doms ↔ Forall2 (λ x dom, x ∈ dom) tupla doms) ∧
    (∀ tupla k, tupla ∈ producto doms → k ∉ ["Edad"; "Fumador"] →
       dict_get (extender [] ["Edad"; "Fumador"] tupla) k = dict_get [] k) ∧
    (NoDup ["Edad"; "Fumador"] →
     ∀ tupla i v x, tupla ∈ producto doms →
       ["Edad"; "Fumador"] !! i = Some v → tupla !! i = Some x →
       dict_get (extender [] ["Edad"; "Fumador"] tupla) v = Some x) ∧
    (["Edad"; "Fumador"] = [] →
     ∃ a, locs = [a] ∧ memoria σ' !! a = Some []).
Proof.
  apply (enumerar_combinaciones_cartesiano red_ejemplo ["Edad"; "Fumador"] 0
           [] (estado_inicial [])).
  - apply red_cargada_red_ejemplo.
  - intros v Hv.
    apply elem_of_cons in Hv as [->|Hv]; [eexists; reflexivity|].
    apply list_elem_of_singleton in Hv as ->. eexists; reflexivity.
  - reflexivity.
Defined.

(** No row of the table of Fumador has the value quizas. *)
Lemma obtener_probabilidad_cero_testigo :
  obtener_probabilidad red_ejemplo "Fumador" (Texto "quizas")
    [("Edad", Texto "joven")] = Ok 0%float.
Proof.
  apply (obtener_probabilidad_cero red_ejemplo "Fumador"
           {| data := tabla_fumador; padres := ["Edad"];
              columna_valor := "Fumador" |}).
  - apply red_cargada_red_ejemplo.
  - reflexivity.
  - right. intros f Hf _ (i & Hi & Hval).
    vm_compute in Hi. injection Hi as <-.
    repeat (apply elem_of_cons in Hf as [->|Hf]; [discriminate Hval|]).
    by apply elem_of_nil in Hf.
Defined.

(** Edad = joven has the factor 0.25 and Fumador = quizas the factor 0:
    two lookups for three variables. *)
Lemma calcular_probabilidad_conjunta_poda_testigo :
  ∃ σ',
    calcular_probabilidad_conjunta red_tres
      (["Edad"] ++ "Fumador" :: ["Ejercicio"]) 0
      (estado_inicial [("Edad", Texto "joven"); ("Fumador", Texto "quizas");
                       ("Ejercicio", Texto "poco")]) =
      (Ok (0%float, []), σ') ∧
    llamadas σ' =
      [("Edad", Texto "joven", []);
       ("Fumador", Texto "quizas", [("Edad", Texto "joven")])] ∧
    length (llamadas σ') = 2.
Proof.
  destruct (calcular_probabilidad_conjunta_poda red_tres ["Edad"] "Fumador"
              ["Ejercicio"] 0
              (estado_inicial [("Edad", Texto "joven");
                               ("Fumador", Texto "quizas");
                               ("Ejercicio", Texto "poco")]))
    as (σ' & Hcalc & Hll & Hlen & _).
  - intros u Hu. apply list_elem_of_singleton in Hu as ->.
    exists 0.25%float. split; reflexivity.
  - exists 0%float. split; reflexivity.
  - exists σ'. split_and!; [exact Hcalc|exact Hll|exact Hlen].
Defined.

(** Edad is a root: the evidence on Fumador is not read. *)
Lemma obtener_probabilidad_raiz_testigo :
  obtener_probabilidad red_ejemplo "Edad" (Texto "joven")
    [("Fumador", Texto "si")] =
    obtener_probabilidad red_ejemplo "Edad" (Texto "joven") [] ∧
  obtener_probabilidad red_ejemplo "Edad" (Texto "joven")
    [("Fumador", Texto "si")] =
    primera_con_valor tabla_edad "Edad" (Texto "joven").
Proof.
  apply (obtener_probabilidad_raiz red_ejemplo "Edad"
           {| data := tabla_edad; padres := []; columna_valor := "Edad" |});
    reflexivity.
Defined.


(** The evidence {Fumador: si} at location 0 after P(Edad | Fumador = si). *)
Lemma inferencia_no_muta_evidencia_testigo :
  let σ' := (inferencia_por_enumeracion red_ejemplo ["Edad"; "Fumador"] "Edad"
               0 true None (estado_inicial [("Fumador", Texto "si")])).2 in
  memoria σ' !! 0 = Some [("Fumador", Texto "si")] ∧
  take 1 (memoria σ') = [[("Fumador", Texto "si")]].
Proof.
  apply (inferencia_no_muta_evidencia red_ejemplo ["Edad"; "Fumador"] "Edad" 0
           true None (estado_inicial [("Fumador", Texto "si")])).
  reflexivity.
Defined.

(** * Further properties of the engine *)

(** ** Lookup: the row that answers *)

Lemma filter_todos {A} (P : A → Prop) `{∀ x, Decision (P x)} (l : list A) :
  (∀ x, x ∈ l → P x) → filter P l = l.
Proof.
  induction l as [|x l IH]; intros Hl; [done|].
  rewrite filter_cons_True by (apply Hl; left).
  f_equal. apply IH. intros y Hy. apply Hl. by right.
Qed.

Lemma coincide_prueba_padres info ev f :
  fila_coincide info ev f →
  forallb (λ padre, prueba_padre (data info) ev padre f) (padres info) = true.
Proof.
  intros Hco. apply forallb_forall. intros padre Hin%list_elem_of_In.
  unfold prueba_padre.
  destruct (dict_get ev padre) as [x|] eqn:Hev; [|done].
  destruct (indice padre (columnas (data info))) as [i|] eqn:Hi; [|done].
  by apply (Hco padre x i).
Qed.

(** On a well-formed entry the lookup is two filters over the rows, in table
    order: the parent filter, then the value. *)
Lemma obtener_probabilidad_filtros rb variable info valor ev iv :
  dict_get (cpts rb) variable = Some info →
  cpt_bien_formada info →
  indice (columna_valor info) (columnas (data info)) = Some iv →
  obtener_probabilidad rb variable valor ev =
  Ok (match filter (λ f, valor_igual (celda iv f) valor)
              (filter (λ f, forallb (λ padre,
                                       prueba_padre (data info) ev padre f)
                              (padres info))
                 (filas (data info))) with
      | [] => 0%float
      | f :: _ => probabilidad f
      end).
Proof.
  intros Hinfo Hbf Hiv. unfold obtener_probabilidad. rewrite Hinfo.
  destruct (padres info) as [|p ps] eqn:Hps.
  - rewrite (primera_con_valor_total _ _ _ iv Hiv).
    by rewrite (filter_todos (λ f, forallb _ [])).
  - rewrite <-Hps in *.
    rewrite <-(const_fmap (λ _ : fila, true)) by done.
    rewrite filtrar_padres_ok by by apply cpt_bien_formada_padres.
    cbn [mbind resultado_bind].
    destruct (filas (df_filtrar _ _)) as [|f0 fs] eqn:Hfs.
    + cbn [df_filtrar filas] in Hfs. rewrite seleccionar_fmap in Hfs.
      cbn [andb] in Hfs. by rewrite Hfs.
    + by rewrite (primera_con_valor_filtrada _ _ _ _ iv Hiv).
Qed.

(** X1. In a network built by the loader, when some row of the table of a
    variable matches the parent filter and has the requested value, the
    lookup returns the probability of the first such row in table order;
    later rows with the same parents and value do not count. *)
Theorem obtener_probabilidad_primera_fila rb variable info valor ev pre f post :
  red_cargada rb →
  dict_get (cpts rb) variable = Some info →
  filas (data info) = pre ++ f :: post →
  fila_coincide info ev f →
  fila_con_valor info valor f →
  (∀ g, g ∈ pre →
     ¬ (fila_coincide info ev g ∧ fila_con_valor info valor g)) →
  obtener_probabilidad rb variable valor ev = Ok (probabilidad f).
Proof.
  intros Hrb Hinfo Hfilas Hco (iv & Hiv & Hval) Hpre.
  pose proof (red_cargada_bien_formada rb Hrb variable info Hinfo) as Hbf.
  rewrite (obtener_probabilidad_filtros rb variable info valor ev iv)
    by done.
  rewrite Hfilas, !filter_app.
  rewrite (filter_vacio _ (filter _ pre)).
  - rewrite (filter_cons_True _ f)
      by (apply Is_true_true; by apply coincide_prueba_padres).
    by rewrite filter_cons_True by (by apply Is_true_true).
  - intros g [Hg1 Hg2]%list_elem_of_filter Hg3. apply (Hpre g Hg2).
    split.
    + by apply prueba_padres_coincide, Is_true_true.
    + exists iv. split; [done|]. by apply Is_true_true.
Qed.

(** Adulto smokers: the third row of the table of Fumador. *)
Lemma obtener_probabilidad_primera_fila_testigo :
  obtener_probabilidad red_ejemplo "Fumador" (Texto "si")
    [("Edad", Texto "adulto")] = Ok 0.25%float.
Proof.
  apply (obtener_probabilidad_primera_fila red_ejemplo "Fumador"
           {| data := tabla_fumador; padres := ["Edad"];
              columna_valor := "Fumador" |} (Texto "si")
           [("Edad", Texto "adulto")]
           [ {| celdas := [Texto "joven"; Texto "si"]; probabilidad := 0.5 |};
             {| celdas := [Texto "joven"; Texto "no"]; probabilidad := 0.5 |} ]
           {| celdas := [Texto "adulto"; Texto "si"]; probabilidad := 0.25 |}
           [ {| celdas := [Texto "adulto"; Texto "no"];
                probabilidad := 0.75 |} ]).
  - apply red_cargada_red_ejemplo.
  - reflexivity.
  - reflexivity.
  - intros padre x i Hp Hx Hi.
    apply list_elem_of_singleton in Hp as ->.
    injection Hx as <-. injection Hi as <-. reflexivity.
  - exists 1. split; reflexivity.
  - intros g Hg [Hco _].
    specialize (Hco "Edad" (Texto "adulto") 0).
    repeat (apply elem_of_cons in Hg as [->|Hg];
            [discriminate Hco; (reflexivity || apply list_elem_of_singleton;
                                reflexivity)|]).
    by apply elem_of_nil in Hg.
Defined.

(** ** Lookup: what it reads of the evidence *)

Lemma filtrar_padres_evidencia df ev1 ev2 ps :
  (∀ padre, padre ∈ ps → dict_get ev1 padre = dict_get ev2 padre) →
  ∀ mascara, filtrar_padres df ev1 ps mascara = filtrar_padres df ev2 ps mascara.
Proof.
  induction ps as [|padre ps IH]; intros Hev mascara; [done|].
  cbn [filtrar_padres]. unfold filtrar_padre.
  rewrite (Hev padre) by left.
  destruct (dict_get ev2 padre) as [x|]; cbn.
  - destruct (columna df padre); cbn; [|done].
    apply IH. intros p Hp. apply Hev. by right.
  - apply IH. intros p Hp. apply Hev. by right.
Qed.

(** X2. The lookup reads the evidence only at the declared parents of the
    variable: two evidence mappings that agree on them (whatever other keys
    they hold, the variable itself included) get the same answer, be it a
    probability or an exception. *)
Theorem obtener_probabilidad_solo_padres rb variable valor ev1 ev2 :
  (∀ info padre,
     dict_get (cpts rb) variable = Some info → padre ∈ padres info →
     dict_get ev1 padre = dict_get ev2 padre) →
  obtener_probabilidad rb variable valor ev1 =
  obtener_probabilidad rb variable valor ev2.
Proof.
  intros Hev. unfold obtener_probabilidad.
  destruct (dict_get (cpts rb) variable) as [info|] eqn:Hinfo; [|done].
  destruct (padres info) as [|p ps] eqn:Hps; [done|].
  rewrite <-Hps.
  by rewrite (filtrar_padres_evidencia _ ev1 ev2) by (intros; by eapply Hev).
Qed.

(** The lookup of Fumador with the evidence on Edad alone, and with
    evidence on Fumador itself and on a variable that is no parent. *)
Lemma obtener_probabilidad_solo_padres_testigo :
  obtener_probabilidad red_ejemplo "Fumador" (Texto "si")
    [("Edad", Texto "adulto")] =
  obtener_probabilidad red_ejemplo "Fumador" (Texto "si")
    [("Fumador", Texto "no"); ("Edad", Texto "adulto");
     ("Ejercicio", Texto "poco")].
Proof.
  apply obtener_probabilidad_solo_padres.
  intros info padre Hinfo Hp. injection Hinfo as <-.
  apply list_elem_of_singleton in Hp as ->. reflexivity.
Defined.

(** X3. In a network built by the loader the lookup of a variable that has a
    CPT always returns a number, for every value and every evidence: the
    columns it reads exist, so no [KeyError] comes from the table, and the
    only exception of the lookup is the [ValueError] of a variable without
    CPT. *)
Theorem obtener_probabilidad_no_falla rb variable valor ev :
  red_cargada rb →
  (is_Some (dict_get (cpts rb) variable) ↔
   ∃ p, obtener_probabilidad rb variable valor ev = Ok p).
Proof.
  intros Hrb. split.
  - intros [info Hinfo].
    pose proof (red_cargada_bien_formada rb Hrb variable info Hinfo) as Hbf.
    destruct (indice_Some _ _ (cpt_bien_formada_valor _ Hbf)) as [iv Hiv].
    rewrite (obtener_probabilidad_filtros rb variable info valor ev iv)
      by done.
    by eexists.
  - intros [p Hp]. unfold obtener_probabilidad in Hp.
    by destruct (dict_get (cpts rb) variable).
Qed.

Lemma obtener_probabilidad_no_falla_testigo :
  (is_Some (dict_get (cpts red_ejemplo) "Fumador") ↔
   ∃ p, obtener_probabilidad red_ejemplo "Fumador" (Texto "quizas")
          [("Edad", NaN)] = Ok p) ∧
  (is_Some (dict_get (cpts red_ejemplo) "Presion") ↔
   ∃ p, obtener_probabilidad red_ejemplo "Presion" (Texto "alta") [] = Ok p).
Proof.
  split; apply obtener_probabilidad_no_falla, red_cargada_red_ejemplo.
Defined.

(** ** Joint probability: the whole product *)

Lemma calcular_bucle_prefijo rb l asg pre ps :
  Forall2 (λ v p, factor_de rb asg v = Ok p ∧ (p =? 0)%float = false) pre ps →
  ∀ resto prob expl σ,
    contenido σ l = asg →
    ∃ expl',
      calcular_bucle rb l (pre ++ resto) prob expl σ =
        calcular_bucle rb l resto (fold_left PrimFloat.mul ps prob)
          (expl ++ expl') (con_llamadas σ (llamada_de rb asg <$> pre)) ∧
      prob_de_factor <$> expl' = ps ∧
      variable_de_factor <$> expl' = pre.
Proof.
  induction 1 as [|v p pre ps [Hp Hno] Hpre IH]; intros resto prob expl σ Hasg.
  - exists []. rewrite app_nil_r. split; [|done].
    destruct σ. unfold con_llamadas. cbn. by rewrite app_nil_r.
  - cbn [app]. subst asg.
    rewrite (calcular_bucle_paso _ _ _ _ _ _ _ p Hp). cbn zeta. rewrite Hno.
    assert (∃ info, cpts_getitem rb v = Ok info) as [info Hinfo].
    { unfold factor_de in Hp. destruct (dict_get _ v); [|done].
      by eapply obtener_probabilidad_registrada. }
    erewrite bind_ok; last by (unfold elevar; rewrite Hinfo).
    edestruct (IH resto) as (expl' & Hrec & Hps & Hvs); [|rewrite Hrec].
    { done. }
    eexists (_ :: expl'). split_and!.
    + rewrite <-app_assoc. cbn [app fold_left]. f_equal.
      unfold con_llamadas. cbn [memoria consola archivos llamadas].
      by rewrite fmap_cons, <-app_assoc.
    + rewrite fmap_cons, Hps. by destruct (padres info).
    + rewrite fmap_cons, Hvs. by destruct (padres info).
Qed.

(** X4. When the factor of every variable of the network is found and none
    is 0, the chain-rule evaluation returns the product of the factors,
    multiplied from 1.0 in the order of the variables, with one entry of
    explanation per variable showing that factor; it makes one lookup per
    variable, in order, and leaves the store as it is. *)
Theorem calcular_probabilidad_conjunta_producto rb vs ps l σ :
  Forall2 (λ v p, factor_de rb (contenido σ l) v = Ok p ∧
                  (p =? 0)%float = false) vs ps →
  ∃ expl,
    calcular_probabilidad_conjunta rb vs l σ =
      (Ok (fold_left PrimFloat.mul ps 1%float, expl),
       con_llamadas σ (llamada_de rb (contenido σ l) <$> vs)) ∧
    prob_de_factor <$> expl = ps ∧
    variable_de_factor <$> expl = vs.
Proof.
  intros Hvs.
  destruct (calcular_bucle_prefijo rb l _ vs ps Hvs [] 1%float [] σ eq_refl)
    as (expl & Hcalc & Hps & Hv).
  exists expl. split; [|done].
  unfold calcular_probabilidad_conjunta.
  rewrite app_nil_r in Hcalc. by rewrite Hcalc.
Qed.

(** The joint probability of Edad = joven, Fumador = si: 0.25 * 0.5. *)
Lemma calcular_probabilidad_conjunta_producto_testigo :
  ∃ expl,
    calcular_probabilidad_conjunta red_ejemplo ["Edad"; "Fumador"] 0
      (estado_inicial [("Edad", Texto "joven"); ("Fumador", Texto "si")]) =
      (Ok (0.125%float, expl),
       con_llamadas
         (estado_inicial [("Edad", Texto "joven"); ("Fumador", Texto "si")])
         [("Edad", Texto "joven", []);
          ("Fumador", Texto "si", [("Edad", Texto "joven")])]) ∧
    prob_de_factor <$> expl = [0.25%float; 0.5%float] ∧
    variable_de_factor <$> expl = ["Edad"; "Fumador"].
Proof.
  apply (calcular_probabilidad_conjunta_producto red_ejemplo
           ["Edad"; "Fumador"] [0.25%float; 0.5%float] 0
           (estado_inicial [("Edad", Texto "joven");
                            ("Fumador", Texto "si")])).
  repeat constructor.
Defined.

(** X5. When the assignment has no value for a variable of the network, the
    factors before it being found and not 0, the evaluation raises
    [KeyError] for that variable without looking it up: the lookups made are
    those of the variables before it. *)
Theorem calcular_probabilidad_conjunta_sin_valor rb pre ps v post l σ :
  Forall2 (λ u p, factor_de rb (contenido σ l) u = Ok p ∧
                  (p =? 0)%float = false) pre ps →
  dict_get (contenido σ l) v = None →
  calcular_probabilidad_conjunta rb (pre ++ v :: post) l σ =
    (Error (KeyError v),
     con_llamadas σ (llamada_de rb (contenido σ l) <$> pre)).
Proof.
  intros Hpre Hv.
  destruct (calcular_bucle_prefijo rb l _ pre ps Hpre (v :: post) 1%float []
              σ eq_refl) as (expl & Hcalc & _).
  unfold calcular_probabilidad_conjunta. rewrite Hcalc.
  cbn [calcular_bucle]. apply bind_error.
  rewrite dict_getitem_run.
  change (contenido (con_llamadas σ _) l) with (contenido σ l).
  by rewrite Hv.
Qed.

(** The assignment gives Edad but not Fumador. *)
Lemma calcular_probabilidad_conjunta_sin_valor_testigo :
  calcular_probabilidad_conjunta red_ejemplo (["Edad"] ++ "Fumador" :: []) 0
    (estado_inicial [("Edad", Texto "joven")]) =
    (Error (KeyError "Fumador"),
     con_llamadas (estado_inicial [("Edad", Texto "joven")])
       [("Edad", Texto "joven", [])]).
Proof.
  apply (calcular_probabilidad_conjunta_sin_valor red_ejemplo ["Edad"]
           [0.25%float] "Fumador" [] 0
           (estado_inicial [("Edad", Texto "joven")])).
  - repeat constructor.
  - reflexivity.
Defined.

(** ** Enumeration: empty domains, fresh results *)

Lemma bind_ok_inv {A B} (m : M A) (f : A → M B) σ b σ' :
  (m ≫= f) σ = (Ok b, σ') →
  ∃ a σ1, m σ = (Ok a, σ1) ∧ f a σ1 = (Ok b, σ').
Proof.
  unfold mbind, M_bind. destruct (m σ) as [[a|e] σ1]; [eauto|done].
Qed.

Lemma enumerar_bucle_vacio rb v vs l :
  (∀ l σ, ∃ σ', enumerar_combinaciones rb vs l σ = (Ok [], σ')) →
  ∀ dom σ, ∃ σ',
    foldM
      (λ combinaciones valor,
         nueva_asignacion ← dict_copy l;
         dict_setitem nueva_asignacion v valor;;
         mas ← enumerar_combinaciones rb vs nueva_asignacion;
         mret (combinaciones ++ mas))
      dom [] σ = (Ok [], σ').
Proof.
  intros IH. induction dom as [|x dom IHdom]; intros σ; [by exists σ|].
  cbn [foldM].
  match goal with
  | |- ∃ _, (?m ≫= _) _ = _ => assert (∃ σ1, m σ = (Ok [], σ1)) as [σ1 Hm]
  end.
  { erewrite bind_ok; [|reflexivity]. erewrite bind_ok; [|reflexivity].
    match goal with
    | |- ∃ _, (enumerar_combinaciones _ _ ?a ≫= _) ?σ0 = _ =>
        destruct (IH a σ0) as [σ1 Hrec]
    end.
    exists σ1. by rewrite (bind_ok _ _ _ _ _ Hrec). }
  destruct (IHdom σ1) as [σ' Hfold]. exists σ'.
  by rewrite (bind_ok _ _ _ _ _ Hm).
Qed.

(** X6. When a hidden variable has an empty domain (its table has no row, or
    only missing values), the variables before it having CPTs, the
    enumeration returns no combination at all, and it never consults the
    variables after it: it returns the empty list even if one of them has no
    CPT. *)
Theorem enumerar_combinaciones_dominio_vacio rb pre doms v post l σ :
  Forall2 (λ u dom, valores_posibles rb u = Ok dom) pre doms →
  valores_posibles rb v = Ok [] →
  ∃ σ', enumerar_combinaciones rb (pre ++ v :: post) l σ = (Ok [], σ').
Proof.
  intros Hpre Hv. revert l σ.
  induction Hpre as [|u dom pre doms Hu Hpre IH]; intros l σ.
  - exists σ. cbn [app enumerar_combinaciones].
    erewrite bind_ok; last by (unfold elevar; rewrite Hv). done.
  - cbn [app enumerar_combinaciones].
    destruct (enumerar_bucle_vacio rb u (pre ++ v :: post) l IH dom σ)
      as [σ' Hfold].
    exists σ'. erewrite bind_ok; last by (unfold elevar; rewrite Hu). done.
Qed.

(** Presion has an empty table and Colesterol has no CPT. *)
Lemma enumerar_combinaciones_dominio_vacio_testigo :
  ∃ σ',
    enumerar_combinaciones red_presion (["Edad"] ++ "Presion" :: ["Colesterol"])
      0 (estado_inicial []) = (Ok [], σ').
Proof.
  apply (enumerar_combinaciones_dominio_vacio red_presion ["Edad"]
           [[Texto "joven"; Texto "adulto"]]).
  - repeat constructor.
  - reflexivity.
Defined.

Lemma enumerar_bucle_frescas rb v vs l :
  (∀ l σ locs σ',
     enumerar_combinaciones rb vs l σ = (Ok locs, σ') →
     length (memoria σ) ≤ length (memoria σ') ∧
     StronglySorted lt locs ∧
     Forall (λ a, length (memoria σ) ≤ a < length (memoria σ')) locs) →
  ∀ dom acc σ locs σ',
    foldM
      (λ combinaciones valor,
         nueva_asignacion ← dict_copy l;
         dict_setitem nueva_asignacion v valor;;
         mas ← enumerar_combinaciones rb vs nueva_asignacion;
         mret (combinaciones ++ mas))
      dom acc σ = (Ok locs, σ') →
    ∃ nuevas,
      locs = acc ++ nuevas ∧
      length (memoria σ) ≤ length (memoria σ') ∧
      StronglySorted lt nuevas ∧
      Forall (λ a, length (memoria σ) ≤ a < length (memoria σ')) nuevas.
Proof.
  intros IH. induction dom as [|x dom IHdom]; intros acc σ locs σ' Hfold.
  - injection Hfold as <- <-. exists []. rewrite app_nil_r.
    split_and!; [done..|constructor|constructor].
  - cbn [foldM] in Hfold.
    apply bind_ok_inv in Hfold as (acc1 & σ4 & Hcuerpo & Hfold).
    apply bind_ok_inv in Hcuerpo as (a & σ2 & Hcopy & Hcuerpo).
    apply bind_ok_inv in Hcuerpo as ([] & σ3 & Hset & Hcuerpo).
    apply bind_ok_inv in Hcuerpo as (mas & σ4' & Henum & Hret).
    injection Hret as <- <-. injection Hcopy as <- <-. injection Hset as <-.
    apply IH in Henum as (Hlen34 & Hmas & Hrango).
    apply IHdom in Hfold as (nuevas & -> & Hlen45 & Hnuevas & Hrango').
    cbn [memoria con_memoria] in *.
    rewrite length_alter, length_app in *. cbn [length] in *.
    exists (mas ++ nuevas). split_and!.
    + by rewrite app_assoc.
    + lia.
    + apply StronglySorted_app. split_and!; [|done..].
      intros a1 a2 Ha1 Ha2.
      rewrite Forall_forall in Hrango, Hrango'.
      specialize (Hrango a1 Ha1). specialize (Hrango' a2 Ha2). lia.
    + apply Forall_app. split.
      * eapply Forall_impl; [exact Hrango|]. cbn. lia.
      * eapply Forall_impl; [exact Hrango'|]. cbn. lia.
Qed.

Lemma enumerar_combinaciones_frescas rb vs :
  ∀ l σ locs σ',
    enumerar_combinaciones rb vs l σ = (Ok locs, σ') →
    length (memoria σ) ≤ length (memoria σ') ∧
    StronglySorted lt locs ∧
    Forall (λ a, length (memoria σ) ≤ a < length (memoria σ')) locs.
Proof.
  induction vs as [|v vs IH]; intros l σ locs σ' Henum;
    cbn [enumerar_combinaciones] in Henum.
  - injection Henum as <- <-. cbn. rewrite length_app. cbn.
    split_and!; [lia|repeat constructor|].
    constructor; [lia|constructor].
  - apply bind_ok_inv in Henum as (dom & σ1 & Hdom & Hfold).
    injection Hdom as _ <-.
    apply (enumerar_bucle_frescas rb v vs l IH) in Hfold
      as (nuevas & -> & ? & ? & ?).
    done.
Qed.

Lemma length_producto doms :
  length (producto doms) = foldr (λ dom n, length dom * n) 1 doms.
Proof.
  induction doms as [|dom doms IH]; [done|]. cbn [producto foldr].
  rewrite <-IH. clear IH.
  induction dom as [|x dom IHdom]; [done|].
  cbn [mbind list_bind]. rewrite length_app, length_fmap.
  cbn [mbind] in IHdom. rewrite IHdom. cbn. lia.
Qed.

(** X7. The combinations that the enumeration returns are new dicts: every
    one is an object made during the call (none is the base or a dict that
    existed before) and no two are the same object; their number is the
    product of the sizes of the domains. *)
Theorem enumerar_combinaciones_nuevas rb vs doms l base σ :
  Forall2 (λ v dom, valores_posibles rb v = Ok dom) vs doms →
  memoria σ !! l = Some base →
  ∃ locs σ',
    enumerar_combinaciones rb vs l σ = (Ok locs, σ') ∧
    length locs = foldr (λ dom n, length dom * n) 1 doms ∧
    NoDup locs ∧
    Forall (λ a, memoria σ !! a = None ∧ is_Some (memoria σ' !! a)) locs.
Proof.
  intros Hvs Hl.
  destruct (enumerar_combinaciones_producto rb vs doms Hvs l base σ Hl)
    as (locs & σ' & Henum & Hlocs).
  exists locs, σ'. split; [done|].
  destruct (enumerar_combinaciones_frescas rb vs l σ locs σ' Henum)
    as (_ & Hord & Hrango).
  split_and!.
  - by rewrite (Forall2_length _ _ _ Hlocs), length_fmap, length_producto.
  - clear -Hord. induction Hord as [|a locs Hord IH Ha]; constructor; [|done].
    intros Hin. rewrite Forall_forall in Ha. specialize (Ha a Hin). lia.
  - eapply Forall_impl; [exact Hrango|]. intros a [Ha1 Ha2]. split.
    + by apply lookup_ge_None.
    + by apply lookup_lt_is_Some.
Qed.

(** The four combinations of Edad and Fumador. *)
Lemma enumerar_combinaciones_nuevas_testigo :
  ∃ locs σ',
    enumerar_combinaciones red_ejemplo ["Edad"; "Fumador"] 0
      (estado_inicial []) = (Ok locs, σ') ∧
    length locs = 4 ∧
    NoDup locs ∧
    Forall (λ a, memoria (estado_inicial []) !! a = None ∧
                 is_Some (memoria σ' !! a)) locs.
Proof.
  apply (enumerar_combinaciones_nuevas red_ejemplo ["Edad"; "Fumador"]
           [[Texto "joven"; Texto "adulto"]; [Texto "si"; Texto "no"]] 0 []).
  - repeat constructor.
  - reflexivity.
Defined.

(** ** The trace: what is printed and what is written *)

Lemma hoare_ret {A} (I : estado → Prop) (a : A) : hoare I (mret a) I.
Proof. by intros σ H. Qed.

Lemma hoare_bind {A B} (P Q : estado → Prop) (m : M A) (f : A → M B) :
  hoare P m Q → (∀ a, hoare Q (f a) Q) → hoare P (m ≫= f) Q.
Proof.
  intros Hm Hf σ HP. specialize (Hm σ HP). unfold mbind, M_bind.
  destruct (m σ) as [[a|e] σ1]; cbn in *; [by apply Hf|done].
Qed.

Lemma hoare_foldM {A B} (I : estado → Prop) (f : B → A → M B) l b :
  (∀ b x, hoare I (f b x) I) → hoare I (foldM f l b) I.
Proof.
  intros Hf. revert b. induction l as [|x l IH]; intros b.
  - apply hoare_ret.
  - cbn [foldM]. apply hoare_bind; [apply Hf|apply IH].
Qed.

Section hoare_traza.
Local Set Default Proof Using "Type*".
Variable I : estado → Prop.
Hypothesis I_solo_traza : solo_traza I.

Lemma hoare_lanzar {A} e : hoare I (@lanzar A e) I.
Proof. by intros σ H. Qed.

Lemma hoare_elevar {A} (r : resultado A) : hoare I (elevar r) I.
Proof. by intros σ H. Qed.

Lemma hoare_leer l : hoare I (leer l) I.
Proof. by intros σ H. Qed.

Lemma hoare_dict_copy l : hoare I (dict_copy l) I.
Proof. intros σ H. by apply (I_solo_traza σ). Qed.

Lemma hoare_dict_setitem l k v : hoare I (dict_setitem l k v) I.
Proof. intros σ H. by apply (I_solo_traza σ). Qed.

Lemma hoare_dict_getitem l k : hoare I (dict_getitem l k) I.
Proof.
  apply hoare_bind; [apply hoare_leer|]. intros d.
  destruct (dict_get d k); [apply hoare_ret|apply hoare_lanzar].
Qed.

Lemma hoare_llamar rb variable valor ev :
  hoare I (llamar_obtener_probabilidad rb variable valor ev) I.
Proof. intros σ H. by apply (I_solo_traza σ). Qed.

Ltac hoare_paso :=
  lazymatch goal with
  | |- hoare _ (mret _) _ => apply hoare_ret
  | |- hoare _ (_ ≫= _) _ => apply hoare_bind; [|intros ?]
  | |- hoare _ (leer _) _ => apply hoare_leer
  | |- hoare _ (lanzar _) _ => apply hoare_lanzar
  | |- hoare _ (elevar _) _ => apply hoare_elevar
  | |- hoare _ (dict_copy _) _ => apply hoare_dict_copy
  | |- hoare _ (dict_setitem _ _ _) _ => apply hoare_dict_setitem
  | |- hoare _ (dict_getitem _ _) _ => apply hoare_dict_getitem
  | |- hoare _ (llamar_obtener_probabilidad _ _ _ _) _ => apply hoare_llamar
  | |- hoare _ (foldM _ _ _) _ => apply hoare_foldM; intros ? ?
  | |- hoare _ (if ?b then _ else _) _ => destruct b
  | |- hoare _ (let '(_, _) := ?x in _) _ => destruct x
  end.

Lemma hoare_calcular_bucle rb l vs prob expl :
  hoare I (calcular_bucle rb l vs prob expl) I.
Proof.
  revert prob expl. induction vs as [|v vs IH]; intros prob expl;
    cbn [calcular_bucle]; repeat hoare_paso.
  apply IH.
Qed.

Lemma hoare_enumerar_combinaciones rb vs l :
  hoare I (enumerar_combinaciones rb vs l) I.
Proof.
  revert l. induction vs as [|v vs IH]; intros l;
    cbn [enumerar_combinaciones]; repeat hoare_paso.
  apply IH.
Qed.

Variable rb : RedBayesiana.
Variable todas_variables : list string.
Variable consulta : string.
Variable evidencia : loc.
Variable mostrar_traza : bool.
Variable archivo_traza : option string.
Hypothesis I_log : ∀ msg, hoare I (log_traza mostrar_traza archivo_traza msg) I.

Lemma hoare_acumular acc combinacion :
  hoare I (acumular rb todas_variables mostrar_traza archivo_traza acc
             combinacion) I.
Proof.
  unfold acumular. repeat (hoare_paso || apply I_log).
  apply hoare_calcular_bucle.
Qed.

Lemma hoare_sumar_valor variables_ocultas resultados valor_consulta :
  hoare I (sumar_valor rb todas_variables consulta evidencia mostrar_traza
             archivo_traza variables_ocultas resultados valor_consulta) I.
Proof.
  unfold sumar_valor. repeat (hoare_paso || apply I_log);
    [apply hoare_enumerar_combinaciones|apply hoare_acumular].
Qed.

Lemma hoare_normalizar resultados :
  hoare I (normalizar consulta evidencia mostrar_traza archivo_traza
             resultados) I.
Proof.
  unfold normalizar, normalizar_valor. repeat (hoare_paso || apply I_log).
Qed.

(** Once the trace is opened, the invariant lasts to the end of the run. *)
Lemma hoare_inferencia_por_enumeracion (P : estado → Prop) :
  hoare P (abrir_traza consulta evidencia archivo_traza) I →
  hoare P (inferencia_por_enumeracion rb todas_variables consulta evidencia
             mostrar_traza archivo_traza) I.
Proof.
  intros Habrir. unfold inferencia_por_enumeracion, sumas.
  apply hoare_bind; [|intros ?; apply hoare_normalizar].
  apply hoare_bind; [exact Habrir|intros ?].
  repeat (hoare_paso || apply I_log). apply hoare_sumar_valor.
Qed.
End hoare_traza.



(** X9. With the trace off ([mostrar_traza=False] and no trace file, [None]
    or the empty string) the run prints nothing and writes no file, whether
    it returns or raises. *)
Theorem sin_traza_no_escribe rb todas_variables consulta evidencia
    archivo_traza σ :
  ruta_traza archivo_traza = None →
  let σ' := (inferencia_por_enumeracion rb todas_variables consulta evidencia
               false archivo_traza σ).2 in
  consola σ' = consola σ ∧ archivos σ' = archivos σ.
Proof.
  intros Hruta σ'.
  apply (hoare_inferencia_por_enumeracion
           (λ τ, consola τ = consola σ ∧ archivos τ = archivos σ))
    with (P := λ τ, τ = σ); [| | |done].
  - intros σ1 σ2 Hc Ha. by rewrite Hc, Ha.
  - intros msg τ [Hc Ha]. unfold log_traza. cbn. by rewrite Hruta.
  - intros τ ->. unfold abrir_traza. by rewrite Hruta.
Qed.

(** The empty string as trace file. *)
Lemma sin_traza_no_escribe_testigo :
  let σ := estado_inicial [("Fumador", Texto "si")] in
  let σ' := (inferencia_por_enumeracion red_ejemplo ["Edad"; "Fumador"] "Edad"
               0 false (Some "") σ).2 in
  consola σ' = [] ∧ archivos σ' = ∅.
Proof.
  intros σ.
  apply (sin_traza_no_escribe red_ejemplo ["Edad"; "Fumador"] "Edad" 0
           (Some "") σ).
  reflexivity.
Defined.

(** ** The values of the distribution *)

Lemma retorna_ret {A} (a : A) (Q : A → Prop) : Q a → retorna (mret a) Q.
Proof. by intros HQ σ a' σ' [= <- _]. Qed.

Lemma retorna_bind {A B} (m : M A) (f : A → M B) (Q1 : A → Prop)
    (Q : B → Prop) :
  retorna m Q1 → (∀ a, Q1 a → retorna (f a) Q) → retorna (m ≫= f) Q.
Proof.
  intros Hm Hf σ b σ' (a & σ1 & Ha & Hb)%bind_ok_inv.
  by eapply Hf; [eapply Hm|].
Qed.

Lemma retorna_impl {A} (m : M A) (Q Q' : A → Prop) :
  retorna m Q → (∀ a, Q a → Q' a) → retorna m Q'.
Proof. intros Hm HQ σ a σ' Ha. by eapply HQ, Hm. Qed.

Lemma retorna_cualquiera {A} (m : M A) : retorna m (λ _, True).
Proof. by intros σ a σ' _. Qed.

Lemma retorna_elevar {A} (r : resultado A) : retorna (elevar r) (λ a, r = Ok a).
Proof. by intros σ a σ' [= -> _]. Qed.

Lemma retorna_sumar_valor rb todas_variables consulta evidencia mostrar archivo
    variables_ocultas resultados valor_consulta :
  retorna
    (sumar_valor rb todas_variables consulta evidencia mostrar archivo
       variables_ocultas resultados valor_consulta)
    (λ r, ∃ s, r = dict_set resultados valor_consulta s).
Proof.
  unfold sumar_valor.
  do 4 (eapply retorna_bind; [apply retorna_cualquiera|intros ? _]).
  eapply retorna_bind; [apply retorna_cualquiera|intros [s n] _].
  do 2 (eapply retorna_bind; [apply retorna_cualquiera|intros ? _]).
  apply retorna_ret. by exists s.
Qed.

Lemma retorna_sumas_bucle rb todas_variables consulta evidencia mostrar archivo
    variables_ocultas valores :
  ∀ resultados,
    NoDup (dict_keys resultados ++ valores) →
    retorna
      (foldM (sumar_valor rb todas_variables consulta evidencia mostrar
                archivo variables_ocultas) valores resultados)
      (λ r, dict_keys r = dict_keys resultados ++ valores).
Proof.
  induction valores as [|v valores IH]; intros resultados Hnd.
  - apply retorna_ret. by rewrite app_nil_r.
  - cbn [foldM].
    eapply retorna_bind; [apply retorna_sumar_valor|].
    intros r [s ->].
    assert (dict_keys (dict_set resultados v s) = dict_keys resultados ++ [v])
      as Hkeys.
    { rewrite dict_set_fresh.
      - unfold dict_keys. by rewrite fmap_app.
      - apply NoDup_app in Hnd as (_ & Hnd & _).
        intros Hv. apply (Hnd v Hv). left. }
    eapply retorna_impl; [apply IH|].
    + by rewrite Hkeys, <-app_assoc.
    + intros r' ->. by rewrite Hkeys, <-app_assoc.
Qed.

Lemma retorna_sumas rb todas_variables consulta evidencia mostrar archivo :
  retorna (sumas rb todas_variables consulta evidencia mostrar archivo)
    (λ r, valores_posibles rb consulta = Ok (dict_keys r)).
Proof.
  unfold sumas.
  do 6 (eapply retorna_bind; [apply retorna_cualquiera|intros ? _]).
  eapply retorna_bind; [apply retorna_elevar|intros dom Hdom].
  do 3 (eapply retorna_bind; [apply retorna_cualquiera|intros ? _]).
  eapply retorna_impl; [apply retorna_sumas_bucle|].
  - cbn. apply valores_posibles_dominio in Hdom as (? & ? & _ & _ & Hnd & _).
    exact Hnd.
  - intros r ->. done.
Qed.

Lemma normalizar_claves consulta evidencia mostrar archivo resultados σ rn σ' :
  NoDup (dict_keys resultados) →
  normalizar consulta evidencia mostrar archivo resultados σ =
    (Ok (Some rn), σ') →
  rn = prod_map id (λ p, p * (1 / suma resultados))%float <$> resultados.
Proof.
  intros Hnd. unfold normalizar. rewrite !bind_log.
  destruct (suma resultados =? 0)%float; [by rewrite bind_log|].
  rewrite bind_log.
  match goal with
  | |- (_ ≫= _) ?σ0 = _ → _ =>
      destruct (normalizar_bucle consulta mostrar archivo
                  (1 / suma resultados)%float resultados [] σ0)
        as (σ1 & Hfold & _)
  end.
  rewrite (bind_ok _ _ _ _ _ Hfold).
  rewrite (fold_dict_set_nuevas (λ p, p * (1 / suma resultados))%float)
    by done.
  rewrite bind_log. by intros [= <- _].
Qed.

(** X10. When the inference returns a distribution, it has one entry for
    each value of the domain of the query variable (the distinct,
    non-missing values of the value column of its CPT), in that order,
    whatever the evidence and the order of the variables; each entry is the
    accumulated sum of its value times 1/total. *)
Theorem inferencia_valores_de_consulta rb todas_variables consulta evidencia
    mostrar archivo σ rn σ' :
  inferencia_por_enumeracion rb todas_variables consulta evidencia mostrar
    archivo σ = (Ok (Some rn), σ') →
  valores_posibles rb consulta = Ok (dict_keys rn) ∧
  ∃ resultados σ1,
    sumas rb todas_variables consulta evidencia mostrar archivo σ =
      (Ok resultados, σ1) ∧
    rn = prod_map id (λ p, p * (1 / suma resultados))%float <$> resultados.
Proof.
  unfold inferencia_por_enumeracion.
  intros (resultados & σ1 & Hsumas & Hnorm)%bind_ok_inv.
  pose proof (retorna_sumas _ _ _ _ _ _ _ _ _ Hsumas) as Hdom.
  assert (NoDup (dict_keys resultados)) as Hnd.
  { by apply valores_posibles_dominio in Hdom as (? & ? & _ & _ & Hnd & _). }
  apply normalizar_claves in Hnorm as ->; [|done].
  split; [|by eauto].
  rewrite Hdom. f_equal. unfold dict_keys. rewrite <-list_fmap_compose.
  apply list_fmap_ext. by intros ? [].
Qed.

(** P(Edad | Fumador = si) has the entries joven and adulto. *)
Lemma inferencia_valores_de_consulta_testigo :
  valores_posibles red_ejemplo "Edad" = Ok [Texto "joven"; Texto "adulto"] ∧
  ∃ resultados σ1,
    sumas red_ejemplo ["Edad"; "Fumador"] "Edad" 0 false None
      (estado_inicial [("Fumador", Texto "si")]) = (Ok resultados, σ1) ∧
    [(Texto "joven", 0.125 * (1 / 0.3125));
     (Texto "adulto", 0.1875 * (1 / 0.3125))]%float =
    prod_map id (λ p, p * (1 / suma resultados))%float <$> resultados.
Proof.
  apply (inferencia_valores_de_consulta red_ejemplo ["Edad"; "Fumador"] "Edad"
           0 false None (estado_inicial [("Fumador", Texto "si")])
           [(Texto "joven", 0.125 * (1 / 0.3125));
            (Texto "adulto", 0.1875 * (1 / 0.3125))]%float
           (inferencia_por_enumeracion red_ejemplo ["Edad"; "Fumador"] "Edad"
              0 false None (estado_inicial [("Fumador", Texto "si")])).2).
  vm_compute. reflexivity.
Defined.

(** ** A network without variables *)

Lemma sumar_valor_sin_variables rb consulta evidencia mostrar archivo
    resultados valor_consulta σ :
  ∃ σ',
    sumar_valor rb [] consulta evidencia mostrar archivo [] resultados
      valor_consulta σ =
      (Ok (dict_set resultados valor_consulta 1%float), σ') ∧
    llamadas σ' = llamadas σ.
Proof.
  unfold sumar_valor. rewrite bind_log.
  do 4 (erewrite bind_ok; [|reflexivity]).
  cbv beta iota zeta. rewrite !bind_log. eexists. split; reflexivity.
Qed.

Lemma sumas_bucle_sin_variables rb consulta evidencia mostrar archivo valores :
  ∀ resultados σ,
    NoDup (dict_keys resultados ++ valores) →
    ∃ σ',
      foldM (sumar_valor rb [] consulta evidencia mostrar archivo [])
        valores resultados σ =
        (Ok (resultados ++ ((λ v, (v, 1%float)) <$> valores)), σ') ∧
      llamadas σ' = llamadas σ.
Proof.
  induction valores as [|v valores IH]; intros resultados σ Hnd.
  - exists σ. by rewrite app_nil_r.
  - destruct (sumar_valor_sin_variables rb consulta evidencia mostrar archivo
                resultados v σ) as (σ1 & Hv & Hll1).
    assert (dict_set resultados v 1%float = resultados ++ [(v, 1%float)])
      as Hset.
    { apply dict_set_fresh. apply NoDup_app in Hnd as (_ & Hnd & _).
      intros Hv'. apply (Hnd v Hv'). left. }
    destruct (IH (resultados ++ [(v, 1%float)]) σ1) as (σ' & Hfold & Hll).
    { unfold dict_keys in *. by rewrite fmap_app, <-app_assoc. }
    exists σ'. split; [|congruence].
    cbn [foldM]. rewrite (bind_ok _ _ _ _ _ Hv), Hset, Hfold.
    by rewrite fmap_cons, <-app_assoc.
Qed.

(** X11. When the set of variables of the network is empty (no structure
    has been loaded), the accumulated sum of every value of the query is
    1.0, the empty product: no CPT is looked up, whatever the tables and the
    evidence say. *)
Theorem sumas_sin_variables rb consulta evidencia mostrar archivo σ dom :
  valores_posibles rb consulta = Ok dom →
  ∃ σ',
    sumas rb [] consulta evidencia mostrar archivo σ =
      (Ok ((λ v, (v, 1%float)) <$> dom), σ') ∧
    llamadas σ' = llamadas σ.
Proof.
  intros Hdom. unfold sumas.
  assert (NoDup dom) as Hnd.
  { by apply valores_posibles_dominio in Hdom as (? & ? & _ & _ & Hnd & _). }
  assert (∃ σ0, abrir_traza consulta evidencia archivo σ = (Ok (), σ0) ∧
                llamadas σ0 = llamadas σ) as (σ0 & Habrir & Hll0).
  { unfold abrir_traza. destruct (ruta_traza archivo); by eexists. }
  rewrite (bind_ok _ _ _ _ _ Habrir), bind_log.
  erewrite bind_ok; [|reflexivity]. rewrite !bind_log.
  erewrite bind_ok; last by (unfold elevar; rewrite Hdom).
  rewrite !bind_log.
  match goal with
  | |- ∃ _, foldM _ _ _ ?σ1 = _ ∧ _ =>
      destruct (sumas_bucle_sin_variables rb consulta evidencia mostrar
                  archivo dom [] σ1 Hnd) as (σ' & Hfold & Hll)
  end.
  exists σ'. split; [exact Hfold|]. by rewrite Hll.
Qed.

(** The table of Edad registered with no structure: P(Edad | Fumador = si)
    sums 1.0 for joven and for adulto. *)
Lemma sumas_sin_variables_testigo :
  ∃ σ',
    sumas red_sin_estructura [] "Edad" 0 false None
      (estado_inicial [("Fumador", Texto "si")]) =
      (Ok [(Texto "joven", 1%float); (Texto "adulto", 1%float)], σ') ∧
    llamadas σ' = [].
Proof.
  apply (sumas_sin_variables red_sin_estructura "Edad" 0 false None
           (estado_inicial [("Fumador", Texto "si")])
           [Texto "joven"; Texto "adulto"]).
  reflexivity.
Defined.

(** ** The combinations assign every variable *)

Lemma extender_clave_base base vs tupla k :
  is_Some (dict_get base k) → is_Some (dict_get (extender base vs tupla) k).
Proof.
  revert base tupla. induction vs as [|v vs IH]; intros base tupla Hk; [done|].
  destruct tupla as [|x tupla]; [done|].
  rewrite extender_cons. apply IH.
  destruct (decide (v = k)) as [->|Hne].
  - by rewrite dict_get_set_eq.
  - by rewrite dict_get_set_ne.
Qed.

Lemma extender_clave_asignada base vs tupla k :
  length tupla = length vs → k ∈ vs →
  is_Some (dict_get (extender base vs tupla) k).
Proof.
  revert base tupla. induction vs as [|v vs IH]; intros base tupla Hlen Hk.
  - by apply elem_of_nil in Hk.
  - destruct tupla as [|x tupla]; [done|].
    rewrite extender_cons. cbn in Hlen.
    destruct (decide (k = v)) as [->|Hne].
    + apply extender_clave_base. by rewrite dict_get_set_eq.
    + apply IH; [lia|]. by apply elem_of_cons in Hk as [?|?].
Qed.

(** X12. The combinations enumerated for a value of the query assign every
    variable of the network: the base holds the evidence and the query, and
    the hidden variables (those that are neither) get a value each. So the
    chain-rule evaluation of such a combination finds a value for every
    variable it visits. *)
Theorem combinaciones_completas rb todas_variables consulta e valor_consulta
    doms l σ :
  let variables_ocultas :=
    filter (λ v, v ≠ consulta ∧ dict_in e v = false) todas_variables in
  Forall2 (λ v dom, valores_posibles rb v = Ok dom) variables_ocultas doms →
  memoria σ !! l = Some (dict_set e consulta valor_consulta) →
  ∃ locs σ',
    enumerar_combinaciones rb variables_ocultas l σ = (Ok locs, σ') ∧
    Forall (λ a, ∀ v, v ∈ todas_variables →
                      is_Some (dict_get (contenido σ' a) v)) locs.
Proof.
  intros variables_ocultas Hdoms Hl.
  destruct (enumerar_combinaciones_producto rb variables_ocultas doms Hdoms l
              _ σ Hl) as (locs & σ' & Henum & Hlocs).
  exists locs, σ'. split; [done|].
  apply Forall_forall. intros a [i Hi]%list_elem_of_lookup v Hv.
  destruct (Forall2_lookup_l _ _ _ _ _ Hlocs Hi) as (d & Hd & Ha).
  apply list_lookup_fmap_Some in Hd as (tupla & -> & Htupla).
  unfold contenido. rewrite Ha. cbn [default].
  assert (length tupla = length variables_ocultas) as Hlen.
  { apply list_elem_of_lookup_2, elem_of_producto in Htupla.
    rewrite (Forall2_length _ _ _ Htupla).
    symmetry. by eapply Forall2_length. }
  destruct (decide (v = consulta)) as [->|Hne].
  { apply extender_clave_base. by rewrite dict_get_set_eq. }
  destruct (dict_get e v) as [x|] eqn:Hev.
  { apply extender_clave_base. by rewrite dict_get_set_ne, Hev. }
  apply extender_clave_asignada; [done|].
  apply list_elem_of_filter. split; [|done].
  split; [done|]. unfold dict_in. by rewrite Hev.
Qed.

(** The combinations for Fumador = si given Edad = joven, in the network
    with Ejercicio. *)
Lemma combinaciones_completas_testigo :
  ∃ locs σ',
    enumerar_combinaciones red_tres ["Ejercicio"] 0
      (estado_inicial [("Edad", Texto "joven"); ("Fumador", Texto "si")]) =
      (Ok locs, σ') ∧
    Forall (λ a, ∀ v, v ∈ ["Edad"; "Fumador"; "Ejercicio"] →
                      is_Some (dict_get (contenido σ' a) v)) locs.
Proof.
  apply (combinaciones_completas red_tres ["Edad"; "Fumador"; "Ejercicio"]
           "Fumador" [("Edad", Texto "joven"); ("Fumador", Texto "no")]
           (Texto "si") [[Texto "poco"; Texto "mucho"]] 0
           (estado_inicial [("Edad", Texto "joven"); ("Fumador", Texto "si")])).
  - repeat constructor.
  - reflexivity.
Defined.

(** ** Loading a CPT *)

Lemma cargar_cpt_otro rb df nombre_nodo otro :
  otro ≠ nombre_nodo →
  dict_get (cpts (cargar_cpt rb df nombre_nodo).1) otro =
  dict_get (cpts rb) otro.
Proof.
  intros Hne. unfold cargar_cpt.
  destruct (last (columnas df)); [|done].
  cbn. by rewrite dict_get_set_ne.
Qed.

(** X13. Loading a table under a name changes the lookups of that name
    only: every other variable keeps its answers and its domain, and the set
    of variables of the network is not extended (a CPT does not make its
    node a variable). Loading again under the same name replaces the entry:
    the network answers as if only the last table had been loaded. A table
    with no variable column is refused and leaves the network as it was. *)
Theorem cargar_cpt_solo_su_nodo rb df nombre_nodo :
  let rb' := (cargar_cpt rb df nombre_nodo).1 in
  (∀ otro valor ev,
     otro ≠ nombre_nodo →
     obtener_probabilidad rb' otro valor ev =
       obtener_probabilidad rb otro valor ev ∧
     valores_posibles rb' otro = valores_posibles rb otro) ∧
  variables rb' = variables rb ∧
  (∀ df2 variable valor ev,
     columnas df2 ≠ [] →
     obtener_probabilidad (cargar_cpt rb' df2 nombre_nodo).1 variable valor ev =
     obtener_probabilidad (cargar_cpt rb df2 nombre_nodo).1 variable valor ev) ∧
  (columnas df = [] → cargar_cpt rb df nombre_nodo = (rb, None)) ∧
  (columnas df ≠ [] →
   (cargar_cpt rb df nombre_nodo).2 = Some nombre_nodo ∧
   ∃ info, dict_get (cpts rb') nombre_nodo = Some info ∧ data info = df).
Proof.
  intros rb'. split_and!.
  - intros otro valor ev Hne.
    unfold obtener_probabilidad, valores_posibles, cpts_getitem.
    subst rb'. by rewrite cargar_cpt_otro.
  - subst rb'. unfold cargar_cpt. by destruct (last (columnas df)).
  - intros df2 variable valor ev Hcols.
    unfold obtener_probabilidad.
    replace (dict_get (cpts (cargar_cpt rb' df2 nombre_nodo).1) variable)
      with (dict_get (cpts (cargar_cpt rb df2 nombre_nodo).1) variable);
      [done|].
    destruct (decide (variable = nombre_nodo)) as [->|Hne].
    + unfold cargar_cpt.
      destruct (last (columnas df2)) eqn:Hlast.
      * cbn. by rewrite !dict_get_set_eq.
      * by apply last_None in Hlast.
    + rewrite !cargar_cpt_otro by done. subst rb'.
      by rewrite cargar_cpt_otro.
  - intros Hcols. unfold cargar_cpt. by rewrite Hcols.
  - intros Hcols. subst rb'. unfold cargar_cpt.
    destruct (last (columnas df)) eqn:Hlast.
    + cbn. split; [done|]. rewrite dict_get_set_eq. by eexists.
    + by apply last_None in Hlast.
Qed.

(** The table of Fumador loaded over [red_ejemplo] under the name Edad. *)
Lemma cargar_cpt_solo_su_nodo_testigo :
  let rb' := (cargar_cpt red_ejemplo tabla_fumador "Edad").1 in
  (obtener_probabilidad rb' "Fumador" (Texto "si") [("Edad", Texto "joven")] =
     obtener_probabilidad red_ejemplo "Fumador" (Texto "si")
       [("Edad", Texto "joven")] ∧
   valores_posibles rb' "Fumador" = valores_posibles red_ejemplo "Fumador") ∧
  obtener_probabilidad (cargar_cpt rb' tabla_edad "Edad").1 "Edad"
    (Texto "joven") [] =
  obtener_probabilidad (cargar_cpt red_ejemplo tabla_edad "Edad").1 "Edad"
    (Texto "joven") [] ∧
  (cargar_cpt red_ejemplo tabla_fumador "Edad").2 = Some "Edad".
Proof.
  intros rb'.
  destruct (cargar_cpt_solo_su_nodo red_ejemplo tabla_fumador "Edad")
    as (H1 & _ & H3 & _ & H5).
  split; [|split].
  - apply H1. discriminate.
  - apply H3. discriminate.
  - apply H5. discriminate.
Defined.

(** ** The validation report *)

(** X14. The report indexes its first three results without a check: given
    fewer than three results it ends in [IndexError], having printed the
    title and the cases up to the missing one, and never the closing
    summary. *)
Theorem generar_reporte_pocos_resultados resultados_reales :
  length resultados_reales < 3 →
  let '(lineas, fin) := generar_reporte_validacion resultados_reales in
  fin = IndexError ∧
  take 4 lineas = [RepTitulo; RepCaso 1; RepConsulta 1; RepVariablesOcultas] ∧
  last lineas = Some (if decide (resultados_reales = [])
                      then RepVariablesOcultas
                      else RepConsulta (S (length resultados_reales))) ∧
  RepCompletada ∉ lineas.
Proof.
  intros Hlen.
  destruct resultados_reales as [|r0 [|r1 [|r2 rs]]]; cbn in Hlen; try lia.
  - cbn. split_and!; [done..|]. (rewrite list_elem_of_In; cbn; intuition discriminate).
  - destruct r0 as [d|]; cbn; (split_and!; [done..|]); (rewrite list_elem_of_In; cbn; intuition discriminate).
  - destruct r0 as [d0|], r1 as [d1|]; cbn; (split_and!; [done..|]);
      (rewrite list_elem_of_In; cbn; intuition discriminate).
Qed.

(** A report of two results. *)
Lemma generar_reporte_pocos_resultados_testigo :
  let '(lineas, fin) :=
    generar_reporte_validacion [Some [(Texto "alto_riesgo", 0.5%float)]; None]
  in
  fin = IndexError ∧
  take 4 lineas = [RepTitulo; RepCaso 1; RepConsulta 1; RepVariablesOcultas] ∧
  last lineas = Some (RepConsulta 3) ∧
  RepCompletada ∉ lineas.
Proof.
  apply (generar_reporte_pocos_resultados
           [Some [(Texto "alto_riesgo", 0.5%float)]; None]).
  cbn. lia.
Defined.

(** X15. Given three results or more the report returns and ends with the
    summary, whose count is the number of results that are not [None] in the
    whole list; the fourth and fifth cases are read only when the list has
    them, and are reported as not computed when it has not. *)
Theorem generar_reporte_completo resultados_reales :
  3 ≤ length resultados_reales →
  let '(lineas, fin) := generar_reporte_validacion resultados_reales in
  fin = Termina ∧
  (∃ cuerpo,
     lineas = cuerpo ++
       [RepExitosos (length (filter (λ r, is_Some r) resultados_reales));
        RepArchivos; RepCompletada] ∧
     RepCompletada ∉ cuerpo) ∧
  (length resultados_reales = 3 →
   ∃ principio,
     lineas = principio ++
       [RepCaso 4; RepConsulta 4; RepNoCalculado;
        RepCaso 5; RepConsulta 5; RepNoCalculado;
        RepExitosos (length (filter (λ r, is_Some r) resultados_reales));
        RepArchivos; RepCompletada]).
Proof.
  intros Hlen.
  destruct resultados_reales as [|r0 [|r1 [|r2 rs]]]; cbn in Hlen; try lia.
  unfold generar_reporte_validacion.
  cbn [lookup list_lookup]. split_and!; [done| |].
  - eexists. split.
    + rewrite !app_assoc. reflexivity.
    + unfold lineas_resultado, lineas_resultado_opcional.
      destruct r0, r1, r2, (_ !! 3) as [[?|]|], (_ !! 4) as [[?|]|];
        cbn; (rewrite list_elem_of_In; cbn; intuition discriminate).
  - intros Hrs. destruct rs; [|done].
    unfold lineas_resultado_opcional. cbn [lookup list_lookup].
    rewrite (app_assoc _ (lineas_resultado r2)).
    eexists. reflexivity.
Qed.

(** A report of three results, the second of them [None]. *)
Lemma generar_reporte_completo_testigo :
  let '(lineas, fin) :=
    generar_reporte_validacion
      [Some [(Texto "alto_riesgo", 0.5%float)]; None;
       Some [(Texto "alto", 1%float)]]
  in
  fin = Termina ∧
  (∃ cuerpo,
     lineas = cuerpo ++ [RepExitosos 2; RepArchivos; RepCompletada] ∧
     RepCompletada ∉ cuerpo) ∧
  (3 = 3 →
   ∃ principio,
     lineas = principio ++
       [RepCaso 4; RepConsulta 4; RepNoCalculado;
        RepCaso 5; RepConsulta 5; RepNoCalculado;
        RepExitosos 2; RepArchivos; RepCompletada]).
Proof.
  apply (generar_reporte_completo
           [Some [(Texto "alto_riesgo", 0.5%float)]; None;
            Some [(Texto "alto", 1%float)]]).
  cbn. lia.
Defined.
